(** * accord: lease coordination client and service adapter

    A shallow embedding of the Go sources

    - the client library (package [accord]): [ClientOptions], [RPCClient],
      [WrapClient], [DialClient], [client.Acquire], [client.Close],
      [client.fetchDone];
    - the service adapter (package [service]): [Acquire], [Renew], [Done],
      [convertHandle], [expTime].

    Go integers are modelled as [Z] with their wrap-around written out,
    maps as [gmap], byte slices as [list byte], and the calls that leave the
    process (storage backend, protocol client, local cache, network
    connection) as operations of an interface record over an abstract
    external state, each call being logged. *)

From Stdlib Require Import ZArith Lia.
From Stdlib.Strings Require Import Byte.
From stdpp Require Import base option list vector strings gmap.

Local Open Scope string_scope.
Local Open Scope Z_scope.
Local Open Scope list_scope.

(** ** Machine integers *)

Module Int.

(** [int64(x)]: two's complement reduction to 64 bits. *)
Definition int64 (x : Z) : Z := (x + 2 ^ 63) mod 2 ^ 64 - 2 ^ 63.

(** [uint32(x)]: the low 32 bits. *)
Definition uint32 (x : Z) : Z := x mod 2 ^ 32.

Definition in_int64 (x : Z) : Prop := - 2 ^ 63 <= x < 2 ^ 63.
Definition in_uint32 (x : Z) : Prop := 0 <= x < 2 ^ 32.

End Int.

(** ** Package [time] *)

Module Time.

(** [time.Duration] is an [int64] count of nanoseconds. *)
Definition Duration := Z.

Definition Nanosecond : Duration := 1.
Definition Second : Duration := 1000000000.
Definition Minute : Duration := 60 * Second.

(** [time.Time]: an instant, as nanoseconds since the Unix epoch. *)
Definition Time := Z.

(** [t.Unix()]: whole seconds since the epoch, rounding down. *)
Definition Unix (t : Time) : Z := t / Second.

(** [t.Nanosecond()]: the nanosecond offset within the second, in
    [0, 999999999]. *)
Definition NanosecondOf (t : Time) : Z := t mod Second.

(** [t.Add(d)]. *)
Definition Add (t : Time) (d : Duration) : Time := t + d.

(** Milliseconds since the Unix epoch, rounding down. *)
Definition UnixMilli (t : Time) : Z := t / 1000000.

End Time.

(** ** Errors *)

(** gRPC status codes (package [codes]); the adapter only produces
    [InvalidArgument] itself. *)
Inductive Code :=
  | Canceled | Unknown | InvalidArgument | DeadlineExceeded
  | NotFound | Internal | Unavailable.

(** Go [error] values that the modelled code creates, compares or passes
    on.  [ErrAcquired] and [ErrDone] are the two sentinels of package
    [accord]; the code compares against them with [==]. *)
Inductive error :=
  | ErrAcquired
  | ErrDone
  | EOF                                   (* io.EOF *)
  | StatusError (c : Code) (msg : string) (* status.Error(c, msg) *)
  | InvalidUUID (n : nat)                 (* uuid.FromBytes on n bytes *)
  | Failure (msg : string).               (* any other error *)

#[global] Instance Code_eq_dec : EqDecision Code.
Proof. solve_decision. Defined.

#[global] Instance error_eq_dec : EqDecision error.
Proof. solve_decision. Defined.

(** What a Go function call ends in: it returns, or it panics. *)
Inductive PanicValue :=
  | NilDereference            (* runtime error: nil pointer dereference *)
  | PanicError (e : error).   (* panic(err), as uuid.Must does *)

Inductive Res (A : Type) :=
  | Returns (a : A)
  | Panics (p : PanicValue).
Arguments Returns {A} a.
Arguments Panics {A} p.

(** ** Package [uuid] *)

Module uuid.

(** [uuid.UUID] is [[16]byte]. *)
Definition UUID := vec byte 16.

(** [u[:]]. *)
Definition bytes (u : UUID) : list byte := vec_to_list u.

(** [uuid.FromBytes(b)]: fails unless [b] has exactly 16 bytes. *)
Definition FromBytes (b : list byte) : error + UUID :=
  match decide (length b = 16%nat) with
  | left H => inr (eq_rect _ (vec byte) (list_to_vec b) _ H)
  | right _ => inl (InvalidUUID (length b))
  end.

(** [uuid.Must(u, err)]: panics with [err] when it is not nil. *)
Definition Must (r : error + UUID) : Res UUID :=
  match r with
  | inr u => Returns u
  | inl e => Panics (PanicError e)
  end.

End uuid.

(** ** Client options *)

Module Options.
Import Time.

(** [OnError] is a function value; no modelled code calls it, so it is
    kept as an opaque token that is copied with the struct. *)
Definition ErrorCallback := nat.

Record ClientOptions := {
  Owner : string;                    (* owner, default: random UUID *)
  Namespace : string;                (* namespace, default: "" *)
  TTL : Duration;                    (* TTL, default: 10 minutes *)
  Dir : string;                      (* data directory *)
  OnError : option ErrorCallback;    (* custom error handler, may be nil *)
}.

(** The zero value [var p ClientOptions]. *)
Definition zero : ClientOptions :=
  {| Owner := ""; Namespace := ""; TTL := 0; Dir := ""; OnError := None |}.

(** [o.ttlSeconds()]: [uint32(o.TTL / time.Second)].  Go's integer
    division truncates toward zero. *)
Definition ttlSeconds (o : ClientOptions) : Z :=
  Int.uint32 (TTL o ÷ Second).

(** The body of [norm] on values.  [o] is the pointee of the receiver
    ([None] for a nil receiver) and [u] is the value of
    [uuid.New().String()], which is only used when the owner is empty. *)
Definition norm_val (o : option ClientOptions) (u : string) : ClientOptions :=
  let p := match o with Some v => v | None => zero end in
  let p := if decide (Owner p = "")
           then {| Owner := u; Namespace := Namespace p; TTL := TTL p;
                   Dir := Dir p; OnError := OnError p |}
           else p in
  let p := if TTL p <? Second
           then {| Owner := Owner p; Namespace := Namespace p;
                   TTL := 10 * Minute;
                   Dir := Dir p; OnError := OnError p |}
           else p in
  let p := if decide (Dir p = "")
           then {| Owner := Owner p; Namespace := Namespace p; TTL := TTL p;
                   Dir := "data"; OnError := OnError p |}
           else p in
  p.

(** Option structs live in a store; a [*ClientOptions] is [None] (nil)
    or an address in it. *)
Definition loc := positive.
Abbreviation store := (gmap loc ClientOptions).

(** [*o] for a non-nil [o].  Go pointers never dangle; an address
    outside the store reads as the zero value. *)
Definition deref (h : store) (o : option loc) : option ClientOptions :=
  match o with
  | Some l => Some (default zero (h !! l))
  | None => None
  end.

(** [o.norm()]: copies [*o] into the local [p] (when [o] is not nil),
    fills in the defaults on [p], and returns [&p], a new object. *)
Definition norm (o : option loc) (u : string) (h : store) : loc * store :=
  let p := norm_val (deref h o) u in
  let l := fresh (dom h) in
  (l, <[l := p]> h).

End Options.

(** ** Calls that leave the process

    A function that calls out is a function of the external state [W]: it
    ends in a result or a panic, leaves a new external state, and has made
    a sequence of outgoing calls, recorded as values of [C]. *)

Module Exec.

Definition M (W C A : Type) : Type := W -> Res A * W * list C.

Definition ret {W C A} (a : A) : M W C A := fun w => (Returns a, w, []).

Definition bind {W C A B} (m : M W C A) (k : A -> M W C B) : M W C B :=
  fun w =>
    match m w with
    | (Returns a, w1, cs1) =>
        let '(r, w2, cs2) := k a w1 in (r, w2, cs1 ++ cs2)
    | (Panics p, w1, cs1) => (Panics p, w1, cs1)
    end.

(** [panic(p)]. *)
Definition panic {W C A} (p : PanicValue) : M W C A :=
  fun w => (Panics p, w, []).

(** A result computed without calling out, which may be a panic. *)
Definition lift {W C A} (r : Res A) : M W C A := fun w => (r, w, []).

(** One outgoing call [c], answered by [f]. *)
Definition call {W C A} (c : C) (f : W -> A * W) : M W C A :=
  fun w => let '(a, w1) := f w in (Returns a, w1, [c]).

(** Reading the external state without calling out. *)
Definition gets {W C A} (f : W -> A) : M W C A :=
  fun w => (Returns (f w), w, []).

(** [defer d; body]: [d] runs when [body] is left, by a return or by a
    panic, and the result of [body] stands. *)
Definition defer {W C A} (d : M W C unit) (body : M W C A) : M W C A :=
  fun w =>
    let '(r, w1, cs1) := body w in
    let '(_, w2, cs2) := d w1 in
    (r, w2, cs1 ++ cs2).

(** The three components of a run. *)
Definition result {W C A} (x : Res A * W * list C) : Res A := x.1.1.
Definition state {W C A} (x : Res A * W * list C) : W := x.1.2.
Definition calls {W C A} (x : Res A * W * list C) : list C := x.2.

#[global] Instance M_ret {W C} : MRet (M W C) := @ret W C.
#[global] Instance M_bind {W C} : MBind (M W C) :=
  fun A B k m => bind m k.

End Exec.

(** ** Wire protocol messages

    The generated protocol package (imported as [rpc] by the service and as
    [proto] by the client) is not among the sources; the messages below have
    the fields the sources read and write. *)

Module rpc.

(** [map[string]string]. *)
Abbreviation StringMap := (gmap string string).

(** The response status.  It is an [int32] on the wire, so a peer may
    send a value that is none of the three named ones. *)
Inductive Status :=
  | Status_OK
  | Status_HELD
  | Status_DONE
  | Status_unrecognized (n : Z).

Record Handle := {
  Id : list byte;
  Name : string;
  Namespace : string;
  ExpTime : Z;          (* int64, milliseconds since the epoch *)
  NumAcquired : Z;      (* uint32 *)
  Metadata : StringMap;
}.

Record AcquireRequest := {
  AcquireRequest_Owner : string;
  AcquireRequest_Name : string;
  AcquireRequest_Namespace : string;
  AcquireRequest_Ttl : Z;   (* uint32, seconds *)
  AcquireRequest_Metadata : StringMap;
}.

Record AcquireResponse := {
  AcquireResponse_Status : Status;
  AcquireResponse_Handle : option Handle;   (* *Handle, may be nil *)
}.

Record RenewRequest := {
  RenewRequest_Owner : string;
  RenewRequest_HandleId : list byte;
  RenewRequest_Ttl : Z;     (* uint32, seconds *)
  RenewRequest_Metadata : StringMap;
}.

Record RenewResponse := {}.

Record DoneRequest := {
  DoneRequest_Owner : string;
  DoneRequest_HandleId : list byte;
  DoneRequest_Metadata : StringMap;
}.

Record DoneResponse := {}.

(** The status member of a list filter; the sources only name [DONE]. *)
Inductive ListRequest_Filter_Status :=
  | ListRequest_Filter_DONE
  | ListRequest_Filter_other (n : Z).

Record ListRequest_Filter := {
  Prefix : string;
  Filter_Status : ListRequest_Filter_Status;
}.

Record ListRequest := {
  Filter : option ListRequest_Filter;   (* *ListRequest_Filter *)
}.

(** A server stream as its reader sees it: [Recv] returns the items in
    order, each with a nil error, and then fails with [ending], which is
    [io.EOF] when the stream ended cleanly.  Streams are finite here: a
    stream that never ends has no counterpart. *)
Record ListStream := {
  items : list Handle;
  ending : error;
}.

End rpc.

(** ** The service adapter (package [service]) *)

Module service.
Import Exec Time.

(** [backend.HandleData], as far as the adapter reads it. *)
Record HandleData := {
  ID : uuid.UUID;
  Name : string;
  Namespace : string;
  ExpTime : Time;
  NumAcquired : Z;
  Metadata : rpc.StringMap;
}.

(** [backend.Backend]: the interface the adapter delegates to, over the
    backend's own state [B].  A Go result pair [(x, err)] is a pair of
    options here, [None] being nil. *)
Class Backend (B : Type) := {
  backend_Acquire :
    string -> string -> string -> Time -> rpc.StringMap ->
    B -> (option HandleData * option error) * B;
  backend_Renew :
    string -> uuid.UUID -> Time -> rpc.StringMap -> B -> option error * B;
  backend_Done :
    string -> uuid.UUID -> rpc.StringMap -> B -> option error * B;
}.

(** The calls the adapter makes on its backend. *)
Inductive BackendCall :=
  | CallAcquire (owner namespace name : string) (exp : Time)
      (meta : rpc.StringMap)
  | CallRenew (owner : string) (id : uuid.UUID) (exp : Time)
      (meta : rpc.StringMap)
  | CallDone (owner : string) (id : uuid.UUID) (meta : rpc.StringMap).

(** What is outside the adapter: the backend and the server's clock. *)
Record World (B : Type) := {
  backend : B;
  clock : Time;
}.
Arguments backend {B} w.
Arguments clock {B} w.

Section Service.
Context {B : Type} `{Backend B}.

Definition SM := M (World B) BackendCall.

Definition on_backend {A} (f : B -> A * B) (w : World B) : A * World B :=
  let '(a, b) := f (backend w) in
  (a, {| backend := b; clock := clock w |}).

(** [time.Now()]. *)
Definition Now : SM Time := gets clock.

(** [expTime(ttl)]: [time.Now().Add(time.Second * time.Duration(ttl))],
    the product being an [int64]. *)
Definition expTime (ttl : Z) : SM Time :=
  now ← Now;
  mret (Add now (Int.int64 (Second * ttl))).

(** [convertHandle(data)]; [data] is a pointer.  [Acquire] applies it to
    the backend's record, and [List] to every record the backend hands to
    its callback before sending it on. *)
Definition convertHandle (data : option HandleData) : Res rpc.Handle :=
  match data with
  | None => Panics NilDereference
  | Some data =>
      let expMillis :=
        Int.int64 (Int.int64 (Unix (ExpTime data) * 1000)
                   + NanosecondOf (ExpTime data) ÷ 1000000) in
      Returns {| rpc.Id := uuid.bytes (ID data);
                 rpc.Name := Name data;
                 rpc.Namespace := Namespace data;
                 rpc.ExpTime := expMillis;
                 rpc.NumAcquired := Int.uint32 (NumAcquired data);
                 rpc.Metadata := Metadata data |}
  end.

(** [service.Acquire]. *)
Definition Acquire (req : rpc.AcquireRequest)
  : SM (error + rpc.AcquireResponse) :=
  if decide (rpc.AcquireRequest_Owner req = "") then
    mret (inl (StatusError InvalidArgument "invalid owner"))
  else if decide (rpc.AcquireRequest_Name req = "") then
    mret (inl (StatusError InvalidArgument "invalid name"))
  else
    exp ← expTime (rpc.AcquireRequest_Ttl req);
    '(data, err) ←
      call (CallAcquire (rpc.AcquireRequest_Owner req)
              (rpc.AcquireRequest_Namespace req)
              (rpc.AcquireRequest_Name req) exp
              (rpc.AcquireRequest_Metadata req))
           (on_backend
              (backend_Acquire (rpc.AcquireRequest_Owner req)
                 (rpc.AcquireRequest_Namespace req)
                 (rpc.AcquireRequest_Name req) exp
                 (rpc.AcquireRequest_Metadata req)));
    if decide (err = Some ErrDone) then
      mret (inr {| rpc.AcquireResponse_Status := rpc.Status_DONE;
                   rpc.AcquireResponse_Handle := None |})
    else if decide (err = Some ErrAcquired) then
      mret (inr {| rpc.AcquireResponse_Status := rpc.Status_HELD;
                   rpc.AcquireResponse_Handle := None |})
    else
      match err with
      | Some e => mret (inl e)
      | None =>
          h ← lift (convertHandle data);
          mret (inr {| rpc.AcquireResponse_Status := rpc.Status_OK;
                       rpc.AcquireResponse_Handle := Some h |})
      end.

(** [service.Renew]. *)
Definition Renew (req : rpc.RenewRequest)
  : SM (error + rpc.RenewResponse) :=
  if decide (rpc.RenewRequest_Owner req = "") then
    mret (inl (StatusError InvalidArgument "invalid owner"))
  else
    match uuid.FromBytes (rpc.RenewRequest_HandleId req) with
    | inl _ => mret (inl (StatusError InvalidArgument "invalid handle ID"))
    | inr handleID =>
        exp ← expTime (rpc.RenewRequest_Ttl req);
        err ← call (CallRenew (rpc.RenewRequest_Owner req) handleID exp
                      (rpc.RenewRequest_Metadata req))
                   (on_backend
                      (backend_Renew (rpc.RenewRequest_Owner req) handleID
                         exp (rpc.RenewRequest_Metadata req)));
        match err with
        | Some e => mret (inl e)
        | None => mret (inr rpc.Build_RenewResponse)
        end
    end.

(** [service.Done]. *)
Definition Done (req : rpc.DoneRequest)
  : SM (error + rpc.DoneResponse) :=
  if decide (rpc.DoneRequest_Owner req = "") then
    mret (inl (StatusError InvalidArgument "invalid owner"))
  else
    match uuid.FromBytes (rpc.DoneRequest_HandleId req) with
    | inl _ => mret (inl (StatusError InvalidArgument "invalid handle ID"))
    | inr handleID =>
        err ← call (CallDone (rpc.DoneRequest_Owner req) handleID
                      (rpc.DoneRequest_Metadata req))
                   (on_backend
                      (backend_Done (rpc.DoneRequest_Owner req) handleID
                         (rpc.DoneRequest_Metadata req)));
        match err with
        | Some e => mret (inl e)
        | None => mret (inr rpc.Build_DoneResponse)
        end
    end.

End Service.

End service.

(** ** The client library (package [accord]) *)

Module accord.
Import Exec Options.

(** What the client calls out to: the protocol client, the local
    completion cache with its write batches, and the network connection.
    These are interfaces or foreign objects in the sources; they are
    operations on an external state [W] here.  A Go result pair
    [(x, err)] of which exactly one side is set is a sum, and a lone
    [error] result is an option.  Every callee is taken to return, and to
    return a value or an error: an answer with both sides nil, and a
    callee that panics, are outside this interface. *)
Class Env := {
  W : Type;
  V1Client : Type;      (* proto.V1Client *)
  ClientConn : Type;    (* *grpc.ClientConn, not nil *)
  DialOption : Type;    (* grpc.DialOption *)
  Cache : Type;         (* cache.Cache, not nil *)
  WriteBatch : Type;    (* the batch returned by AddBatch *)
  Handle : Type;        (* *Handle *)

  (* proto.NewV1Client(cc) *)
  NewV1Client : ClientConn -> V1Client;
  (* newHandle(id, rpc, meta, opt) *)
  newHandle : uuid.UUID -> V1Client -> rpc.StringMap -> ClientOptions -> Handle;
  (* filepath.Join(a, b) *)
  filepath_Join : string -> string -> string;

  (* rpc.Acquire(ctx, req) and rpc.List(ctx, req) *)
  rpc_Acquire : V1Client -> rpc.AcquireRequest -> W -> (error + rpc.AcquireResponse) * W;
  rpc_List : V1Client -> rpc.ListRequest -> W -> (error + rpc.ListStream) * W;

  (* cache.OpenBadger(path) and the methods of cache.Cache *)
  cache_OpenBadger : string -> W -> (error + Cache) * W;
  cache_Contains : Cache -> string -> W -> (bool * option error) * W;
  cache_Add : Cache -> string -> W -> option error * W;
  cache_AddBatch : Cache -> W -> (error + WriteBatch) * W;
  cache_Close : Cache -> W -> option error * W;

  (* the methods of a write batch *)
  wb_Add : WriteBatch -> string -> W -> option error * W;
  wb_Flush : WriteBatch -> W -> option error * W;
  wb_Discard : WriteBatch -> W -> W;

  (* grpc.DialContext(ctx, target, dialOpt...) and cc.Close() *)
  grpc_DialContext : string -> list DialOption -> W -> (error + ClientConn) * W;
  cc_Close : ClientConn -> W -> option error * W;
}.

Section Client.
Context `{E : Env}.

(** The calls the client makes. *)
Inductive Call :=
  | CallDial (target : string) (dialOpt : list DialOption)
  | CallConnClose (cc : ClientConn)
  | CallOpenBadger (path : string)
  | CallList (r : V1Client) (req : rpc.ListRequest)
  | CallRecv
  | CallAcquire (r : V1Client) (req : rpc.AcquireRequest)
  | CallContains (c : Cache) (name : string)
  | CallAdd (c : Cache) (name : string)
  | CallAddBatch (c : Cache)
  | CallCacheClose (c : Cache)
  | CallBatchAdd (wb : WriteBatch) (name : string)
  | CallBatchFlush (wb : WriteBatch)
  | CallBatchDiscard (wb : WriteBatch).

Definition CM := M W Call.

(** The [client] struct.  [opt] points to the normalized copy made by
    [norm], which no code writes to afterwards; it is kept by value.  As
    in every client the constructors build, [rpc] and [opt] are not nil. *)
Record client := {
  rpc : V1Client;
  opt : ClientOptions;
  cache : option Cache;        (* interface value, nil in a zero client *)
  ownCC : option ClientConn;   (* nil unless the client dialed itself *)
}.

(** [c.cache.m(...)]: a method call on a nil interface panics. *)
Definition with_cache {A} (c : client) (k : Cache -> CM A) : CM A :=
  match cache c with
  | Some ch => k ch
  | None => panic NilDereference
  end.

(** The [for] loop of [fetchDone] over the stream [res], with the batch
    [wb] open.  [Some err] is [return err] from inside the loop, [None]
    is the [break] on [io.EOF]. *)
Fixpoint fetchDone_loop (c : client) (wb : WriteBatch)
    (rest : list rpc.Handle) (ending : error) : CM (option error) :=
  match rest with
  | [] =>
      (* handle, err := res.Recv() with err != nil *)
      _ ← call CallRecv (fun w => (tt, w));
      if decide (ending = EOF) then mret None else mret (Some ending)
  | handle :: rest =>
      _ ← call CallRecv (fun w => (tt, w));
      if decide (rpc.Namespace handle = Namespace (opt c)) then
        err ← call (CallBatchAdd wb (rpc.Name handle))
                   (wb_Add wb (rpc.Name handle));
        match err with
        | Some e => mret (Some e)
        | None => fetchDone_loop c wb rest ending
        end
      else fetchDone_loop c wb rest ending
  end.

(** [c.fetchDone(ctx)]. *)
Definition fetchDone (c : client) : CM (option error) :=
  let req := {| rpc.Filter := Some {|
                  rpc.Prefix := Namespace (opt c);
                  rpc.Filter_Status := rpc.ListRequest_Filter_DONE |} |} in
  res ← call (CallList (rpc c) req) (rpc_List (rpc c) req);
  match res with
  | inl err => mret (Some err)
  | inr res =>
      with_cache c (fun ch =>
        wb ← call (CallAddBatch ch) (cache_AddBatch ch);
        match wb with
        | inl err => mret (Some err)
        | inr wb =>
            defer (call (CallBatchDiscard wb)
                     (fun w => (tt, wb_Discard wb w)))
              (stop ← fetchDone_loop c wb (rpc.items res) (rpc.ending res);
               match stop with
               | Some err => mret (Some err)
               | None => call (CallBatchFlush wb) (wb_Flush wb)
               end)
        end)
  end.

(** [RPCClient(ctx, rpc, opt)].  [o] is the pointee of [opt] ([None]
    for nil) and [u] the random owner that [norm] would generate. *)
Definition RPCClient (r : V1Client) (o : option ClientOptions) (u : string)
  : CM (error + client) :=
  let opt := norm_val o u in
  let path := filepath_Join (Dir opt) "cache" in
  cache ← call (CallOpenBadger path) (cache_OpenBadger path);
  match cache with
  | inl err => mret (inl err)
  | inr cache =>
      let client := {| rpc := r; opt := opt;
                       cache := Some cache; ownCC := None |} in
      err ← fetchDone client;
      match err with
      | Some err =>
          _ ← call (CallCacheClose cache) (cache_Close cache);
          mret (inl err)
      | None => mret (inr client)
      end
  end.

(** [WrapClient(ctx, cc, opt)]. *)
Definition WrapClient (cc : ClientConn) (o : option ClientOptions)
    (u : string) : CM (error + client) :=
  RPCClient (NewV1Client cc) o u.

(** [DialClient(ctx, target, opt, dialOpt...)]. *)
Definition DialClient (target : string) (o : option ClientOptions)
    (u : string) (dialOpt : list DialOption) : CM (error + client) :=
  cc ← call (CallDial target dialOpt) (grpc_DialContext target dialOpt);
  match cc with
  | inl err => mret (inl err)
  | inr cc =>
      ci ← WrapClient cc o u;
      match ci with
      | inl err =>
          _ ← call (CallConnClose cc) (cc_Close cc);
          mret (inl err)
      | inr ci =>
          mret (inr {| rpc := rpc ci; opt := opt ci; cache := cache ci;
                       ownCC := Some cc |})
      end
  end.

(** [c.Acquire(ctx, name, meta)]. *)
Definition Acquire (c : client) (name : string) (meta : rpc.StringMap)
  : CM (error + Handle) :=
  with_cache c (fun ch =>
    '(found, err) ← call (CallContains ch name) (cache_Contains ch name);
    match err with
    | Some err => mret (inl err)
    | None =>
        if (found : bool) then mret (inl ErrDone)
        else
          let req := {| rpc.AcquireRequest_Owner := Owner (opt c);
                        rpc.AcquireRequest_Name := name;
                        rpc.AcquireRequest_Namespace := Namespace (opt c);
                        rpc.AcquireRequest_Ttl := ttlSeconds (opt c);
                        rpc.AcquireRequest_Metadata := meta |} in
          res ← call (CallAcquire (rpc c) req) (rpc_Acquire (rpc c) req);
          match res with
          | inl err => mret (inl err)
          | inr res =>
              match rpc.AcquireResponse_Status res with
              | rpc.Status_HELD => mret (inl ErrAcquired)
              | rpc.Status_DONE =>
                  err ← call (CallAdd ch name) (cache_Add ch name);
                  match err with
                  | Some err => mret (inl err)
                  | None => mret (inl ErrDone)
                  end
              | _ =>
                  match rpc.AcquireResponse_Handle res with
                  | None => panic NilDereference
                  | Some h =>
                      handleID ← lift (uuid.Must (uuid.FromBytes (rpc.Id h)));
                      mret (inr (newHandle handleID (rpc c)
                                   (rpc.Metadata h) (opt c)))
                  end
              end
          end
    end).

(** [c.Close()]. *)
Definition Close (c : client) : CM (option error) :=
  let err : option error := None in
  err ← match cache c with
        | Some ch =>
            e2 ← call (CallCacheClose ch) (cache_Close ch);
            mret (match e2 with Some _ => e2 | None => err end)
        | None => mret err
        end;
  err ← match ownCC c with
        | Some cc =>
            e2 ← call (CallConnClose cc) (cc_Close cc);
            mret (match e2 with Some _ => e2 | None => err end)
        | None => mret err
        end;
  mret err.

End Client.

End accord.

(** ** Test doubles

    Concrete implementations of the two interfaces, on which the
    operations above can be run. *)

Module Doubles.

(** A backend that answers from a script and counts the calls it gets. *)
Record ScriptedBackend := {
  acquire_reply : option service.HandleData * option error;
  renew_reply : option error;
  done_reply : option error;
  invocations : nat;
}.

Definition invoked (b : ScriptedBackend) : ScriptedBackend :=
  {| acquire_reply := acquire_reply b; renew_reply := renew_reply b;
     done_reply := done_reply b; invocations := S (invocations b) |}.

#[global] Instance scripted_backend : service.Backend ScriptedBackend := {|
  service.backend_Acquire := fun _ _ _ _ _ b => (acquire_reply b, invoked b);
  service.backend_Renew := fun _ _ _ _ b => (renew_reply b, invoked b);
  service.backend_Done := fun _ _ _ b => (done_reply b, invoked b);
|}.

(** The operations of the local cache and of the connection, as keys of
    a fault plan. *)
Inductive Op :=
  | OpOpen | OpContains | OpAdd | OpAddBatch | OpCacheClose
  | OpBatchAdd | OpBatchFlush | OpDial | OpConnClose.

#[global] Instance Op_eq_dec : EqDecision Op.
Proof. solve_decision. Defined.

(** The world around a client under test: the local completion cache, a
    remote end that answers from a script, and a connection.

    Modelled from the spec: the local completion cache (package
    [internal/cache], whose code is not among the sources).  It is a set
    of names; [Contains] is exact membership, [Add] a single insertion, a
    write batch stages names that become visible together on [Flush] and
    never on [Discard], and [Discard] after [Flush] does nothing.  Any
    operation can be made to fail by the fault plan, and a failing
    operation changes nothing.  Paths are joined with a separator, without
    the cleaning that [filepath.Join] does; the cache ignores its path. *)
Record World := {
  names : gset string;          (* the names the cache holds *)
  staged : list string;         (* the names staged in the open batch *)
  cache_closed : bool;
  conn_closed : bool;
  remote_acquire : error + rpc.AcquireResponse;
  remote_list : error + rpc.ListStream;
  remote_calls : nat;           (* calls that reached the remote end *)
  faults : Op -> option error;
}.

Definition set_cache (w : World) (n : gset string) (s : list string)
    (closed : bool) : World :=
  {| names := n; staged := s; cache_closed := closed;
     conn_closed := conn_closed w; remote_acquire := remote_acquire w;
     remote_list := remote_list w; remote_calls := remote_calls w;
     faults := faults w |}.

Definition remote_called (w : World) : World :=
  {| names := names w; staged := staged w; cache_closed := cache_closed w;
     conn_closed := conn_closed w; remote_acquire := remote_acquire w;
     remote_list := remote_list w; remote_calls := S (remote_calls w);
     faults := faults w |}.

Definition set_conn_closed (w : World) : World :=
  {| names := names w; staged := staged w; cache_closed := cache_closed w;
     conn_closed := true; remote_acquire := remote_acquire w;
     remote_list := remote_list w; remote_calls := remote_calls w;
     faults := faults w |}.

(** An operation returning only an error. *)
Definition guarded (op : Op) (f : World -> World) (w : World)
  : option error * World :=
  match faults w op with
  | Some e => (Some e, w)
  | None => (None, f w)
  end.

(** An operation returning a value or an error. *)
Definition guarded_val {A} (op : Op) (f : World -> A * World) (w : World)
  : (error + A) * World :=
  match faults w op with
  | Some e => (inl e, w)
  | None => let '(a, w1) := f w in (inr a, w1)
  end.

(** The handle a client returns, as the record of what it was built
    from. *)
Record Handle := {
  handle_id : uuid.UUID;
  handle_meta : rpc.StringMap;
  handle_opt : Options.ClientOptions;
}.

#[global] Instance env : accord.Env := {|
  accord.W := World;
  accord.V1Client := unit;
  accord.ClientConn := unit;
  accord.DialOption := unit;
  accord.Cache := unit;
  accord.WriteBatch := unit;
  accord.Handle := Handle;
  accord.NewV1Client := fun _ => tt;
  accord.newHandle := fun id _ meta opt =>
    {| handle_id := id; handle_meta := meta; handle_opt := opt |};
  accord.filepath_Join := fun a b => (a +:+ "/" +:+ b)%string;
  accord.rpc_Acquire := fun _ _ w => (remote_acquire w, remote_called w);
  accord.rpc_List := fun _ _ w => (remote_list w, remote_called w);
  accord.cache_OpenBadger := fun _ =>
    guarded_val OpOpen (fun w => (tt, set_cache w (names w) [] false));
  accord.cache_Contains := fun _ name w =>
    match faults w OpContains with
    | Some e => ((false, Some e), w)
    | None => ((bool_decide (name ∈ names w), None), w)
    end;
  accord.cache_Add := fun _ name =>
    guarded OpAdd (fun w =>
      set_cache w ({[name]} ∪ names w) (staged w) (cache_closed w));
  accord.cache_AddBatch := fun _ =>
    guarded_val OpAddBatch (fun w =>
      (tt, set_cache w (names w) [] (cache_closed w)));
  accord.cache_Close := fun _ =>
    guarded OpCacheClose (fun w => set_cache w (names w) (staged w) true);
  accord.wb_Add := fun _ name =>
    guarded OpBatchAdd (fun w =>
      set_cache w (names w) (staged w ++ [name]) (cache_closed w));
  accord.wb_Flush := fun _ =>
    guarded OpBatchFlush (fun w =>
      set_cache w (list_to_set (staged w) ∪ names w) [] (cache_closed w));
  accord.wb_Discard := fun _ w =>
    set_cache w (names w) [] (cache_closed w);
  accord.grpc_DialContext := fun _ _ =>
    guarded_val OpDial (fun w => (tt, w));
  accord.cc_Close := fun _ => guarded OpConnClose set_conn_closed;
|}.

(** *** Sample data *)

Definition sample_bytes : list byte :=
  [x00; x01; x02; x03; x04; x05; x06; x07;
   x08; x09; x0a; x0b; x0c; x0d; x0e; x0f]%byte.

Definition sample_id : uuid.UUID := list_to_vec sample_bytes.

(** A lease on [job-1] in namespace [batch], expiring at
    2023-11-14T22:13:20.123456789Z. *)
Definition sample_data : service.HandleData :=
  {| service.ID := sample_id;
     service.Name := "job-1";
     service.Namespace := "batch";
     service.ExpTime := 1700000000123456789;
     service.NumAcquired := 1;
     service.Metadata := ∅ |}.

Definition sample_backend
    (reply : option service.HandleData * option error)
  : service.World ScriptedBackend :=
  {| service.backend :=
       {| acquire_reply := reply; renew_reply := None;
          done_reply := None; invocations := 0 |};
     service.clock := 1699999400000000000 |}.

Definition sample_acquire (owner name : string) : rpc.AcquireRequest :=
  {| rpc.AcquireRequest_Owner := owner;
     rpc.AcquireRequest_Name := name;
     rpc.AcquireRequest_Namespace := "batch";
     rpc.AcquireRequest_Ttl := 600;
     rpc.AcquireRequest_Metadata := ∅ |}.

Definition sample_handle (ns name : string) (id : list byte) : rpc.Handle :=
  {| rpc.Id := id; rpc.Name := name; rpc.Namespace := ns;
     rpc.ExpTime := 1700000000123; rpc.NumAcquired := 1;
     rpc.Metadata := ∅ |}.

Definition no_faults : Op -> option error := fun _ => None.

Definition fault_at (op : Op) (e : error) : Op -> option error :=
  fun op' => if decide (op' = op) then Some e else None.

(** A world whose cache holds [known], whose remote end answers
    [Acquire] with [reply] and [List] with [stream]. *)
Definition sample_world (known : list string)
    (reply : error + rpc.AcquireResponse) (stream : error + rpc.ListStream)
    (plan : Op -> option error) : World :=
  {| names := list_to_set known; staged := [];
     cache_closed := false; conn_closed := false;
     remote_acquire := reply; remote_list := stream;
     remote_calls := 0; faults := plan |}.

Definition sample_options : Options.ClientOptions :=
  {| Options.Owner := "worker-1"; Options.Namespace := "batch";
     Options.TTL := 600000000000; Options.Dir := "data";
     Options.OnError := None |}.

Definition sample_client (own : option unit) : accord.client :=
  {| accord.rpc := tt; accord.opt := sample_options;
     accord.cache := Some tt; accord.ownCC := own |}.

Definition reply_with (s : rpc.Status) (h : option rpc.Handle)
  : error + rpc.AcquireResponse :=
  inr {| rpc.AcquireResponse_Status := s;
         rpc.AcquireResponse_Handle := h |}.

(** Three finished records: two in [batch], one in [batch-2], which
    has the client's namespace as a prefix. *)
Definition sample_stream (ending : error) : error + rpc.ListStream :=
  inr {| rpc.items := [sample_handle "batch" "job-1" sample_bytes;
                       sample_handle "batch-2" "job-2" sample_bytes;
                       sample_handle "batch" "job-3" sample_bytes];
         rpc.ending := ending |}.

End Doubles.

(** * Properties *)

(** ** Machine integers and time *)

Module IntFacts.
Import Int.

Lemma int64_id x : in_int64 x -> int64 x = x.
Proof.
  unfold in_int64, int64. intros H.
  rewrite Z.mod_small by lia. lia.
Qed.

Lemma int64_range x : in_int64 (int64 x).
Proof.
  unfold in_int64, int64.
  pose proof (Z.mod_pos_bound (x + 2 ^ 63) (2 ^ 64)). lia.
Qed.

(** Wrapping an intermediate sum does not change the wrapped total. *)
Lemma int64_add_l x y : int64 (int64 x + y) = int64 (x + y).
Proof.
  unfold int64.
  replace ((x + 2 ^ 63) mod 2 ^ 64 - 2 ^ 63 + y + 2 ^ 63)
    with ((x + 2 ^ 63) mod 2 ^ 64 + y) by lia.
  replace (x + y + 2 ^ 63) with ((x + 2 ^ 63) + y) by lia.
  now rewrite Zplus_mod_idemp_l.
Qed.

Lemma uint32_id x : in_uint32 x -> uint32 x = x.
Proof. unfold in_uint32, uint32. intros H. now apply Z.mod_small. Qed.

Lemma uint32_range x : in_uint32 (uint32 x).
Proof. unfold in_uint32, uint32. apply Z.mod_pos_bound. lia. Qed.

End IntFacts.

Module TimeFacts.
Import Time.

Lemma NanosecondOf_range t : 0 <= NanosecondOf t < Second.
Proof. unfold NanosecondOf, Second. apply Z.mod_pos_bound. lia. Qed.

Lemma Unix_Nanosecond t : t = Unix t * Second + NanosecondOf t.
Proof.
  unfold Unix, NanosecondOf, Second.
  pose proof (Z.div_mod t 1000000000). lia.
Qed.

(** Splitting an instant in seconds and nanoseconds and rescaling both
    parts to milliseconds gives the instant in milliseconds. *)
Lemma millis_split t :
  Unix t * 1000 + NanosecondOf t ÷ 1000000 = UnixMilli t.
Proof.
  unfold UnixMilli.
  pose proof (NanosecondOf_range t) as Hr.
  rewrite Z.quot_div_nonneg by lia.
  rewrite (Unix_Nanosecond t) at 3.
  unfold Second in *.
  replace (Unix t * 1000000000 + NanosecondOf t)
    with (NanosecondOf t + (Unix t * 1000) * 1000000) by lia.
  rewrite Z.div_add by lia. lia.
Qed.

(** A [uint32] count of seconds is a [Duration] without overflow. *)
Lemma seconds_fit ttl :
  Int.in_uint32 ttl -> Int.int64 (Second * ttl) = ttl * Second.
Proof.
  unfold Int.in_uint32, Second. intros H.
  rewrite IntFacts.int64_id; [lia|]. unfold Int.in_int64. lia.
Qed.

End TimeFacts.

Module uuidFacts.
Import uuid.

Lemma bytes_length u : length (bytes u) = 16%nat.
Proof. apply length_vec_to_list. Qed.

Lemma FromBytes_ok b :
  length b = 16%nat -> exists u, FromBytes b = inr u /\ bytes u = b.
Proof.
  intros H. unfold FromBytes.
  destruct (decide (length b = 16%nat)) as [e|]; [|done].
  eexists; split; [reflexivity|].
  unfold bytes. destruct e. simpl. apply vec_to_list_to_vec.
Qed.

Lemma FromBytes_err b :
  length b <> 16%nat -> FromBytes b = inl (InvalidUUID (length b)).
Proof.
  intros H. unfold FromBytes.
  destruct (decide (length b = 16%nat)); [done|reflexivity].
Qed.

Lemma FromBytes_bytes u : FromBytes (bytes u) = inr u.
Proof.
  destruct (FromBytes_ok (bytes u) (bytes_length u)) as (u' & -> & E).
  f_equal. now apply vec_to_list_inj2.
Qed.

End uuidFacts.

(** ** Client options *)

Module OptionsFacts.
Import Time Options.

Lemma norm_val_Owner o u :
  Owner (norm_val o u) =
  if decide (Owner (default zero o) = "") then u else Owner (default zero o).
Proof.
  unfold norm_val. destruct o as [p|]; simpl;
    repeat (case_decide || case_match); simpl in *; congruence.
Qed.

Lemma norm_val_TTL o u :
  TTL (norm_val o u) =
  if decide (Second <= TTL (default zero o)) then TTL (default zero o)
  else 10 * Minute.
Proof.
  unfold norm_val. destruct o as [p|]; simpl;
    repeat (case_decide || case_match); simpl in *; try congruence; lia.
Qed.

Lemma norm_val_Dir o u :
  Dir (norm_val o u) =
  if decide (Dir (default zero o) = "") then "data" else Dir (default zero o).
Proof.
  unfold norm_val. destruct o as [p|]; simpl;
    repeat (case_decide || case_match); simpl in *; congruence.
Qed.

Lemma norm_val_Namespace o u :
  Namespace (norm_val o u) = Namespace (default zero o).
Proof.
  unfold norm_val. destruct o as [p|]; simpl;
    repeat (case_decide || case_match); simpl in *; congruence.
Qed.

Lemma norm_val_OnError o u :
  OnError (norm_val o u) = OnError (default zero o).
Proof.
  unfold norm_val. destruct o as [p|]; simpl;
    repeat (case_decide || case_match); simpl in *; congruence.
Qed.

(** The normalized TTL is at least one second. *)
Lemma norm_val_TTL_min o u : Second <= TTL (norm_val o u).
Proof.
  rewrite norm_val_TTL. case_decide; [done|]. unfold Minute, Second. lia.
Qed.

(** [norm] returns the address of a new object. *)
Lemma norm_fresh o u (h : store) : (norm o u h).1 ∉ dom h.
Proof. unfold norm. simpl. apply is_fresh. Qed.

Lemma norm_lookup o u (h : store) :
  (norm o u h).2 !! (norm o u h).1 = Some (norm_val (deref h o) u).
Proof. unfold norm. simpl. apply lookup_insert_eq. Qed.

(** The options the caller passed, a nil pointer standing for the zero
    value that [norm] starts from. *)
Definition given (h : store) (o : option loc) : ClientOptions :=
  default zero (deref h o).

(** C6: the object [norm] returns has the given owner when that is not
    empty and the generated identifier [u] otherwise; the given TTL when
    that is at least one second and 10 minutes otherwise; the given
    directory when that is not empty and "data" otherwise. *)
Theorem norm_defaults (o : option loc) (u : string) (h : store) :
  exists p,
    (norm o u h).2 !! (norm o u h).1 = Some p /\
    Owner p = (if decide (Owner (given h o) = "") then u
               else Owner (given h o)) /\
    TTL p = (if decide (1 * Second <= TTL (given h o)) then TTL (given h o)
             else 10 * Minute) /\
    Dir p = (if decide (Dir (given h o) = "") then "data"
             else Dir (given h o)).
Proof.
  exists (norm_val (deref h o) u).
  split; [apply norm_lookup|].
  rewrite norm_val_Owner, norm_val_TTL, norm_val_Dir.
  rewrite Z.mul_1_l. repeat split; reflexivity.
Qed.

(** C9: [norm] works on a copy.  Every options struct in the store,
    the caller's among them, still has its value afterwards, and the
    result is a new object; a nil receiver is accepted and gives the
    fully defaulted options. *)
Theorem norm_frame (o : option loc) (u : string) (h : store) :
  (forall l v, h !! l = Some v -> (norm o u h).2 !! l = Some v) /\
  ((norm o u h).1 ∉ dom h) /\
  (norm None u h).2 !! (norm None u h).1 =
    Some {| Owner := u; Namespace := ""; TTL := 10 * Minute;
            Dir := "data"; OnError := None |}.
Proof.
  split; [|split].
  - intros l v Hl. unfold norm. simpl.
    rewrite lookup_insert_ne; [done|].
    intros <-. pose proof (is_fresh (dom h)) as Hf.
    apply Hf, elem_of_dom. eauto.
  - apply norm_fresh.
  - rewrite norm_lookup. reflexivity.
Qed.

End OptionsFacts.

(** ** The service adapter *)

Module serviceFacts.
Import Exec Time service.

(** Unfolds one layer of the adapter's plumbing. *)
Ltac run :=
  unfold expTime, Now, gets, on_backend, call, lift, panic,
    mbind, M_bind, bind, mret, M_ret, ret; simpl.

Section Adapter.
Context {B : Type} `{Backend B}.

(** The handle record sent for a backend record. *)
Definition wire (d : HandleData) : rpc.Handle :=
  {| rpc.Id := uuid.bytes (ID d);
     rpc.Name := Name d;
     rpc.Namespace := Namespace d;
     rpc.ExpTime := Int.int64 (UnixMilli (ExpTime d));
     rpc.NumAcquired := Int.uint32 (NumAcquired d);
     rpc.Metadata := Metadata d |}.

Lemma convertHandle_wire d : convertHandle (Some d) = Returns (wire d).
Proof.
  unfold convertHandle, wire. do 2 f_equal.
  rewrite IntFacts.int64_add_l. now rewrite TimeFacts.millis_split.
Qed.

Lemma expTime_run ttl (w : World B) :
  expTime ttl w = (Returns (clock w + Int.int64 (Second * ttl)), w, []).
Proof. reflexivity. Qed.

(** The backend call that [Acquire] makes for a well-formed request,
    at the instant the server's clock shows. *)
Definition acquire_call (req : rpc.AcquireRequest) (now : Time)
  : B -> (option HandleData * option error) * B :=
  backend_Acquire (rpc.AcquireRequest_Owner req)
    (rpc.AcquireRequest_Namespace req) (rpc.AcquireRequest_Name req)
    (Add now (Int.int64 (Second * rpc.AcquireRequest_Ttl req)))
    (rpc.AcquireRequest_Metadata req).

(** The adapter's translation of the backend's answer [(data, err)]. *)
Definition translate (r : option HandleData * option error)
  : Res (error + rpc.AcquireResponse) :=
  match r.2 with
  | Some ErrDone =>
      Returns (inr {| rpc.AcquireResponse_Status := rpc.Status_DONE;
                      rpc.AcquireResponse_Handle := None |})
  | Some ErrAcquired =>
      Returns (inr {| rpc.AcquireResponse_Status := rpc.Status_HELD;
                      rpc.AcquireResponse_Handle := None |})
  | Some e => Returns (inl e)
  | None =>
      match r.1 with
      | Some d =>
          Returns (inr {| rpc.AcquireResponse_Status := rpc.Status_OK;
                          rpc.AcquireResponse_Handle := Some (wire d) |})
      | None => Panics NilDereference
      end
  end.

(** [Acquire] on a request that passes validation: one backend call,
    whose answer is translated. *)
Lemma Acquire_valid req (w : World B) :
  rpc.AcquireRequest_Owner req <> "" ->
  rpc.AcquireRequest_Name req <> "" ->
  Acquire req w =
    (translate (acquire_call req (clock w) (backend w)).1,
     {| backend := (acquire_call req (clock w) (backend w)).2;
        clock := clock w |},
     [CallAcquire (rpc.AcquireRequest_Owner req)
        (rpc.AcquireRequest_Namespace req) (rpc.AcquireRequest_Name req)
        (Add (clock w) (Int.int64 (Second * rpc.AcquireRequest_Ttl req)))
        (rpc.AcquireRequest_Metadata req)]).
Proof.
  intros Ho Hn. unfold Acquire, acquire_call, translate.
  rewrite decide_False by done. rewrite decide_False by done.
  run.
  destruct (backend_Acquire _ _ _ _ _ _) as [[data err] b]. simpl.
  destruct err as [e|].
  - destruct e; simpl; reflexivity.
  - simpl. destruct data as [d|]; [|reflexivity].
    rewrite convertHandle_wire. reflexivity.
Qed.

(** C1: for a request with non-empty owner and name, the backend's
    "already held" gives a response with status HELD and no handle,
    "already done" gives status DONE and no handle, and a success with
    record [d] gives status OK with the whole of [d] as the handle;
    and any response [Acquire] returns has a handle exactly when its
    status is OK. *)
Theorem Acquire_translates_outcome (req : rpc.AcquireRequest)
    (w : World B) :
  rpc.AcquireRequest_Owner req <> "" ->
  rpc.AcquireRequest_Name req <> "" ->
  (forall data,
     (acquire_call req (clock w) (backend w)).1 = (data, Some ErrAcquired) ->
     result (Acquire req w) =
       Returns (inr {| rpc.AcquireResponse_Status := rpc.Status_HELD;
                       rpc.AcquireResponse_Handle := None |})) /\
  (forall data,
     (acquire_call req (clock w) (backend w)).1 = (data, Some ErrDone) ->
     result (Acquire req w) =
       Returns (inr {| rpc.AcquireResponse_Status := rpc.Status_DONE;
                       rpc.AcquireResponse_Handle := None |})) /\
  (forall d,
     (acquire_call req (clock w) (backend w)).1 = (Some d, None) ->
     result (Acquire req w) =
       Returns (inr {| rpc.AcquireResponse_Status := rpc.Status_OK;
                       rpc.AcquireResponse_Handle :=
                         Some {| rpc.Id := uuid.bytes (ID d);
                                 rpc.Name := Name d;
                                 rpc.Namespace := Namespace d;
                                 rpc.ExpTime :=
                                   Int.int64 (UnixMilli (ExpTime d));
                                 rpc.NumAcquired :=
                                   Int.uint32 (NumAcquired d);
                                 rpc.Metadata := Metadata d |} |})) /\
  (forall resp,
     result (Acquire req w) = Returns (inr resp) ->
     (is_Some (rpc.AcquireResponse_Handle resp) <->
      rpc.AcquireResponse_Status resp = rpc.Status_OK)).
Proof.
  intros Ho Hn. pose proof (Acquire_valid req w Ho Hn) as Hr.
  apply (f_equal result) in Hr. unfold result in *. simpl in Hr.
  rewrite Hr. unfold translate.
  split; [|split; [|split]].
  - intros data ->. reflexivity.
  - intros data ->. reflexivity.
  - intros d ->. reflexivity.
  - intros resp Hresp.
    destruct (acquire_call _ _ _).1 as [[d|] [[]|]];
      simpl in Hresp; simplify_eq; simpl;
      (split; [intros [h Hh]; congruence | intros Hs; try congruence; eauto]).
Qed.

(** C3: a structurally invalid request is answered with an
    invalid-argument failure, the backend is not called and the
    external state is as before: [Acquire] with an empty owner or an
    empty name, [Renew] and [Done] with an empty owner or a handle
    identifier that is not 16 bytes long. *)
Theorem invalid_requests_rejected (w : World B) :
  (forall req,
     rpc.AcquireRequest_Owner req = "" \/ rpc.AcquireRequest_Name req = "" ->
     exists msg,
       Acquire req w = (Returns (inl (StatusError InvalidArgument msg)), w, [])) /\
  (forall req,
     rpc.RenewRequest_Owner req = "" \/
     length (rpc.RenewRequest_HandleId req) <> 16%nat ->
     exists msg,
       Renew req w = (Returns (inl (StatusError InvalidArgument msg)), w, [])) /\
  (forall req,
     rpc.DoneRequest_Owner req = "" \/
     length (rpc.DoneRequest_HandleId req) <> 16%nat ->
     exists msg,
       Done req w = (Returns (inl (StatusError InvalidArgument msg)), w, [])).
Proof.
  repeat split.
  - intros req Hreq. unfold Acquire.
    destruct (decide (rpc.AcquireRequest_Owner req = "")); [eauto|].
    destruct (decide (rpc.AcquireRequest_Name req = "")); [eauto|].
    tauto.
  - intros req Hreq. unfold Renew.
    destruct (decide (rpc.RenewRequest_Owner req = "")); [eauto|].
    destruct Hreq as [|Hlen]; [done|].
    rewrite (uuidFacts.FromBytes_err _ Hlen). eauto.
  - intros req Hreq. unfold Done.
    destruct (decide (rpc.DoneRequest_Owner req = "")); [eauto|].
    destruct Hreq as [|Hlen]; [done|].
    rewrite (uuidFacts.FromBytes_err _ Hlen). eauto.
Qed.

End Adapter.

End serviceFacts.

(** ** The client library *)

Module accordFacts.
Import Exec Time Options accord.

(** Unfolds one layer of the client's plumbing. *)
Ltac run :=
  unfold with_cache, defer, call, lift, panic,
    mbind, M_bind, bind, mret, M_ret, ret; simpl.

Section Client.
Context `{E : Env}.

(** The request [Acquire] sends for [name] and [meta]. *)
Definition acquire_request (c : client) (name : string)
    (meta : rpc.StringMap) : rpc.AcquireRequest :=
  {| rpc.AcquireRequest_Owner := Owner (opt c);
     rpc.AcquireRequest_Name := name;
     rpc.AcquireRequest_Namespace := Namespace (opt c);
     rpc.AcquireRequest_Ttl := ttlSeconds (opt c);
     rpc.AcquireRequest_Metadata := meta |}.

(** What [Acquire] makes of a response. *)
Definition on_response (c : client) (ch : Cache) (name : string)
    (res : rpc.AcquireResponse) (w : W) (cs : list Call)
  : Res (error + Handle) * W * list Call :=
  match rpc.AcquireResponse_Status res with
  | rpc.Status_HELD => (Returns (inl ErrAcquired), w, cs)
  | rpc.Status_DONE =>
      (Returns (inl (default ErrDone (cache_Add ch name w).1)),
       (cache_Add ch name w).2, cs ++ [CallAdd ch name])
  | _ =>
      match rpc.AcquireResponse_Handle res with
      | None => (Panics NilDereference, w, cs)
      | Some h =>
          match uuid.FromBytes (rpc.Id h) with
          | inl e => (Panics (PanicError e), w, cs)
          | inr id =>
              (Returns (inr (newHandle id (rpc c) (rpc.Metadata h) (opt c))),
               w, cs)
          end
      end
  end.

(** [Acquire] step by step: the cache lookup, then the remote call,
    then the response. *)
Lemma Acquire_run c ch name meta (w : W) :
  cache c = Some ch ->
  Acquire c name meta w =
    let lookup := cache_Contains ch name w in
    match lookup.1 with
    | (_, Some e) => (Returns (inl e), lookup.2, [CallContains ch name])
    | (true, None) =>
        (Returns (inl ErrDone), lookup.2, [CallContains ch name])
    | (false, None) =>
        let req := acquire_request c name meta in
        let reply := rpc_Acquire (rpc c) req lookup.2 in
        match reply.1 with
        | inl e =>
            (Returns (inl e), reply.2,
             [CallContains ch name; CallAcquire (rpc c) req])
        | inr res =>
            on_response c ch name res reply.2
              [CallContains ch name; CallAcquire (rpc c) req]
        end
    end.
Proof.
  intros Hc. unfold Acquire, on_response, acquire_request. run.
  rewrite Hc. simpl.
  destruct (cache_Contains ch name w) as [[found err] w1]. simpl.
  destruct err as [e|]; [by destruct found|].
  destruct found; [done|]. simpl.
  destruct (rpc_Acquire _ _ w1) as [[e|res] w2]; simpl; [done|].
  destruct (rpc.AcquireResponse_Status res); simpl.
  - destruct (rpc.AcquireResponse_Handle res); [|done]. simpl.
    by destruct (uuid.FromBytes _).
  - done.
  - destruct (cache_Add ch name w2) as [[e|] w3]; done.
  - destruct (rpc.AcquireResponse_Handle res); [|done]. simpl.
    by destruct (uuid.FromBytes _).
Qed.

(** Every remote call of [Acquire] goes to the client's protocol
    client and carries [acquire_request]. *)
Lemma Acquire_sends c name meta (w : W) r req :
  In (CallAcquire r req) (calls (Acquire c name meta w)) ->
  r = rpc c /\ req = acquire_request c name meta.
Proof.
  destruct (cache c) as [ch|] eqn:Hc.
  - rewrite (Acquire_run c ch name meta w Hc). simpl.
    destruct (cache_Contains ch name w).1 as [[|] [e|]]; simpl;
      try (intros [Hin|[]]; discriminate).
    destruct (rpc_Acquire _ _ _).1 as [e|res]; simpl.
    + intros [Hin|[Hin|[]]]; by simplify_eq.
    + unfold on_response.
      destruct (rpc.AcquireResponse_Status res); simpl;
        repeat case_match; simpl;
        intros Hin; repeat (destruct Hin as [Hin|Hin]; simplify_eq);
        done.
  - unfold Acquire. run. rewrite Hc. simpl. done.
Qed.

(** C5: when the cache lookup reports the name present, [Acquire]
    fails with [ErrDone] having made the lookup and no other call;
    and whenever [Acquire] makes the remote call, the lookup reported
    the name absent. *)
Theorem Acquire_cached (c : client) (ch : Cache) (name : string)
    (meta : rpc.StringMap) (w : W) :
  cache c = Some ch ->
  ((cache_Contains ch name w).1 = (true, None) ->
   Acquire c name meta w =
     (Returns (inl ErrDone), (cache_Contains ch name w).2,
      [CallContains ch name])) /\
  (forall r req,
     In (CallAcquire r req) (calls (Acquire c name meta w)) ->
     (cache_Contains ch name w).1 = (false, None)).
Proof.
  intros Hc. rewrite (Acquire_run c ch name meta w Hc). simpl. split.
  - intros ->. reflexivity.
  - intros r req.
    destruct (cache_Contains ch name w).1 as [[|] [e|]]; simpl;
      try (intros [Hin|[]]; discriminate); done.
Qed.

(** C2, as the code has it: after a lookup that reports the name
    absent and a remote call answered with [res], status HELD gives
    [ErrAcquired] and no cache call; status DONE makes the single
    insertion and gives [ErrDone] when the insertion succeeds and the
    insertion's error when it fails; status OK with a handle whose
    identifier decodes gives the handle built by [newHandle] from the
    identifier, the protocol client, the returned metadata and the
    client's options. *)
Theorem Acquire_maps_status (c : client) (ch : Cache) (name : string)
    (meta : rpc.StringMap) (w w1 w2 : W) (res : rpc.AcquireResponse) :
  cache c = Some ch ->
  cache_Contains ch name w = ((false, None), w1) ->
  rpc_Acquire (rpc c) (acquire_request c name meta) w1 = (inr res, w2) ->
  let sent := [CallContains ch name;
               CallAcquire (rpc c) (acquire_request c name meta)] in
  (rpc.AcquireResponse_Status res = rpc.Status_HELD ->
   Acquire c name meta w = (Returns (inl ErrAcquired), w2, sent)) /\
  (rpc.AcquireResponse_Status res = rpc.Status_DONE ->
   Acquire c name meta w =
     (Returns (inl (match (cache_Add ch name w2).1 with
                    | None => ErrDone
                    | Some e => e
                    end)),
      (cache_Add ch name w2).2, sent ++ [CallAdd ch name])) /\
  (forall h id,
     rpc.AcquireResponse_Status res = rpc.Status_OK ->
     rpc.AcquireResponse_Handle res = Some h ->
     uuid.FromBytes (rpc.Id h) = inr id ->
     Acquire c name meta w =
       (Returns (inr (newHandle id (rpc c) (rpc.Metadata h) (opt c))),
        w2, sent)).
Proof.
  intros Hc Hlook Hreply sent.
  rewrite (Acquire_run c ch name meta w Hc). simpl.
  rewrite Hlook. simpl. rewrite Hreply. simpl. unfold on_response.
  split; [|split].
  - intros ->. reflexivity.
  - intros ->. by destruct (cache_Add ch name w2).1.
  - intros h id -> -> ->. reflexivity.
Qed.

(** C10: a response with status OK is only handled without a panic
    when it carries a handle with a 16-byte identifier.  Without a
    handle the dereference panics, with an identifier of another
    length [uuid.Must] panics with the decoding error, and no error is
    returned to the caller in either case. *)
Theorem Acquire_ok_panics (c : client) (ch : Cache) (name : string)
    (meta : rpc.StringMap) (w w1 w2 : W) (res : rpc.AcquireResponse) :
  cache c = Some ch ->
  cache_Contains ch name w = ((false, None), w1) ->
  rpc_Acquire (rpc c) (acquire_request c name meta) w1 = (inr res, w2) ->
  rpc.AcquireResponse_Status res = rpc.Status_OK ->
  (rpc.AcquireResponse_Handle res = None ->
   result (Acquire c name meta w) = Panics NilDereference) /\
  (forall h,
     rpc.AcquireResponse_Handle res = Some h ->
     length (rpc.Id h) <> 16%nat ->
     result (Acquire c name meta w) =
       Panics (PanicError (InvalidUUID (length (rpc.Id h))))) /\
  (forall h,
     rpc.AcquireResponse_Handle res = Some h ->
     length (rpc.Id h) = 16%nat ->
     exists handle, result (Acquire c name meta w) = Returns (inr handle)).
Proof.
  intros Hc Hlook Hreply Hok.
  rewrite (Acquire_run c ch name meta w Hc). simpl.
  rewrite Hlook. simpl. rewrite Hreply. simpl. unfold on_response.
  rewrite Hok. split; [|split].
  - intros ->. reflexivity.
  - intros h -> Hlen. by rewrite (uuidFacts.FromBytes_err _ Hlen).
  - intros h -> Hlen.
    destruct (uuidFacts.FromBytes_ok _ Hlen) as (id & -> & _). eauto.
Qed.

End Client.

End accordFacts.

(** ** Client construction and shutdown *)

Module startupFacts.
Import Exec Time Options accord accordFacts.

Section Startup.
Context `{E : Env}.

(** The names that the startup synchronization is to stage: those of
    the streamed records whose namespace is the client's, in stream
    order. *)
Definition matching (opt : ClientOptions) (items : list rpc.Handle)
  : list string :=
  rpc.Name <$>
    filter (fun h => rpc.Namespace h = Namespace opt) items.

(** The names staged by a sequence of calls, with their batch. *)
Definition batch_adds (cs : list Call) : list (WriteBatch * string) :=
  omap (fun c => match c with
                 | CallBatchAdd wb n => Some (wb, n)
                 | _ => None
                 end) cs.

(** The number of [Recv] calls in a sequence of calls. *)
Definition recvs (cs : list Call) : nat :=
  length (omap (fun c => match c with
                         | CallRecv => Some tt
                         | _ => None
                         end) cs).

(** A sequence of calls that only reads the stream and stages names
    in the batch [wb]. *)
Definition streaming (wb : WriteBatch) (cs : list Call) : Prop :=
  Forall (fun c => c = CallRecv \/ exists n, c = CallBatchAdd wb n) cs.

(** The request of the startup synchronization. *)
Definition list_request (opt : ClientOptions) : rpc.ListRequest :=
  {| rpc.Filter := Some {|
       rpc.Prefix := Namespace opt;
       rpc.Filter_Status := rpc.ListRequest_Filter_DONE |} |}.

Lemma batch_adds_app cs1 cs2 :
  batch_adds (cs1 ++ cs2) = batch_adds cs1 ++ batch_adds cs2.
Proof. unfold batch_adds. apply omap_app. Qed.

Lemma recvs_app cs1 cs2 : recvs (cs1 ++ cs2) = (recvs cs1 + recvs cs2)%nat.
Proof. unfold recvs. now rewrite omap_app, length_app. Qed.

Lemma streaming_nil wb : streaming wb [].
Proof. constructor. Qed.

Lemma streaming_recv wb cs : streaming wb cs -> streaming wb (CallRecv :: cs).
Proof. intros Hs. constructor; [by left|done]. Qed.

Lemma streaming_add wb n cs :
  streaming wb cs -> streaming wb (CallBatchAdd wb n :: cs).
Proof. intros Hs. constructor; [right; eauto|done]. Qed.

Create HintDb stream.
Hint Resolve streaming_nil streaming_recv streaming_add : stream.

Lemma batch_adds_recv cs : batch_adds (CallRecv :: cs) = batch_adds cs.
Proof. reflexivity. Qed.

Lemma batch_adds_add wb n cs :
  batch_adds (CallBatchAdd wb n :: cs) = (wb, n) :: batch_adds cs.
Proof. reflexivity. Qed.

Lemma recvs_recv cs : recvs (CallRecv :: cs) = S (recvs cs).
Proof. reflexivity. Qed.

Lemma recvs_add wb n cs : recvs (CallBatchAdd wb n :: cs) = recvs cs.
Proof. reflexivity. Qed.

Lemma matching_cons_eq opt h items :
  rpc.Namespace h = Namespace opt ->
  matching opt (h :: items) = rpc.Name h :: matching opt items.
Proof.
  intros Hns. unfold matching. now rewrite filter_cons_True.
Qed.

Lemma matching_cons_ne opt h items :
  rpc.Namespace h <> Namespace opt ->
  matching opt (h :: items) = matching opt items.
Proof.
  intros Hns. unfold matching. now rewrite filter_cons_False.
Qed.

(** Staging [names] one after the other in the batch [wb], up to the
    first staging that fails: the failure if there is one, the external
    state reached, and the names handed to the batch, the failing one
    included. *)
Fixpoint stage (wb : WriteBatch) (names : list string) (w : W)
  : option error * W * list string :=
  match names with
  | [] => (None, w, [])
  | n :: names =>
      match wb_Add wb n w with
      | (Some e, w1) => (Some e, w1, [n])
      | (None, w1) =>
          let '(r, w2, tried) := stage wb names w1 in (r, w2, n :: tried)
      end
  end.

(** The names handed to the batch are an initial part of [names], and all
    of them when no staging failed. *)
Lemma stage_tried wb names (w : W) :
  (stage wb names w).2 `prefix_of` names /\
  ((stage wb names w).1.1 = None -> (stage wb names w).2 = names).
Proof.
  revert w. induction names as [|n names IH]; intros w; simpl.
  - done.
  - destruct (wb_Add wb n w) as [[e|] w1]; simpl.
    + split; [apply prefix_cons, prefix_nil|discriminate].
    + destruct (IH w1) as [Hp Hall].
      destruct (stage wb names w1) as [[r w2] tried]. simpl in *.
      split; [by apply prefix_cons|]. intros Hr. by rewrite Hall.
Qed.

(** How the loop stops, given how the staging went and how the stream
    ends: [Some e] is [return e], [None] is the [break] at [io.EOF]. *)
Definition loop_stop (staging : option error) (ending : error)
  : option error :=
  match staging with
  | Some e => Some e
  | None => if decide (ending = EOF) then None else Some ending
  end.

(** The loop, pinned down.  It returns; the external state it leaves is
    the one reached by staging the names of the matching records in stream
    order; it stops with the first failed staging if there is one, and
    else the way the stream ends.  Its calls only read the stream and hand
    names to the batch, exactly those that were staged, and without a
    failed staging it has read the stream to its end. *)
Lemma fetchDone_loop_pinned c wb items ending (w : W) :
  exists body,
    fetchDone_loop c wb items ending w =
      (Returns (loop_stop (stage wb (matching (opt c) items) w).1.1 ending),
       (stage wb (matching (opt c) items) w).1.2, body) /\
    streaming wb body /\
    batch_adds body = (wb,.) <$> (stage wb (matching (opt c) items) w).2 /\
    ((stage wb (matching (opt c) items) w).1.1 = None ->
     recvs body = S (length items)).
Proof.
  revert w. induction items as [|h items IH]; intros w; simpl.
  - run. exists [CallRecv]. unfold loop_stop. simpl.
    split; [by destruct (decide (ending = EOF))|].
    split; [auto with stream|]. done.
  - run.
    destruct (decide (rpc.Namespace h = Namespace (opt c))) as [Hns|Hns].
    + rewrite (matching_cons_eq _ _ _ Hns). simpl.
      destruct (wb_Add wb (rpc.Name h) w) as [[e|] w1]; simpl.
      * exists [CallRecv; CallBatchAdd wb (rpc.Name h)].
        split; [reflexivity|]. split; [auto with stream|].
        split; [reflexivity|discriminate].
      * destruct (IH w1) as (body & -> & Hs & Hb & Hr).
        destruct (stage wb (matching (opt c) items) w1) as [[r w2] tried].
        simpl in *.
        exists (CallRecv :: CallBatchAdd wb (rpc.Name h) :: body).
        split; [reflexivity|]. split; [auto with stream|].
        rewrite batch_adds_recv, batch_adds_add, recvs_recv, recvs_add.
        split; [by rewrite Hb|]. intros Hn. by rewrite Hr.
    + rewrite (matching_cons_ne _ _ _ Hns).
      destruct (IH w) as (body & -> & Hs & Hb & Hr).
      exists (CallRecv :: body).
      split; [reflexivity|]. split; [auto with stream|].
      rewrite batch_adds_recv, recvs_recv.
      split; [done|]. intros Hn. by rewrite Hr.
Qed.

(** [fetchDone] from the point where it has its stream [res] and its
    batch [wb], in the external state [w]: the error it returns, the state
    it leaves and the calls that follow the loop.  A failed staging, or a
    stream that does not end in [io.EOF], is returned with the batch
    discarded and never flushed; otherwise the batch is flushed, the
    flush's result is returned, and the deferred discard follows. *)
Definition finish (wb : WriteBatch) (ending : error)
    (staged : option error * W * list string)
  : option error * W * list Call :=
  match loop_stop staged.1.1 ending with
  | Some e => (Some e, wb_Discard wb staged.1.2, [CallBatchDiscard wb])
  | None =>
      ((wb_Flush wb staged.1.2).1,
       wb_Discard wb (wb_Flush wb staged.1.2).2,
       [CallBatchFlush wb; CallBatchDiscard wb])
  end.

Lemma fetchDone_pinned c ch (w : W) :
  cache c = Some ch ->
  match rpc_List (rpc c) (list_request (opt c)) w with
  | (inl e, w1) =>
      fetchDone c w =
        (Returns (Some e), w1, [CallList (rpc c) (list_request (opt c))])
  | (inr res, w1) =>
      match cache_AddBatch ch w1 with
      | (inl e, w2) =>
          fetchDone c w =
            (Returns (Some e), w2,
             [CallList (rpc c) (list_request (opt c)); CallAddBatch ch])
      | (inr wb, w2) =>
          let staged := stage wb (matching (opt c) (rpc.items res)) w2 in
          let fin := finish wb (rpc.ending res) staged in
          exists body,
            fetchDone c w =
              (Returns fin.1.1, fin.1.2,
               [CallList (rpc c) (list_request (opt c)); CallAddBatch ch]
                 ++ body ++ fin.2) /\
            streaming wb body /\
            batch_adds body = (wb,.) <$> staged.2 /\
            (staged.1.1 = None -> recvs body = S (length (rpc.items res)))
      end
  end.
Proof.
  intros Hc. unfold fetchDone. fold (list_request (opt c)). run.
  destruct (rpc_List _ _ w) as [[e|res] w1]; simpl; [done|].
  rewrite Hc. run.
  destruct (cache_AddBatch ch w1) as [[e|wb] w2]; simpl; [done|].
  destruct (fetchDone_loop_pinned c wb (rpc.items res) (rpc.ending res) w2)
    as (body & -> & Hs & Hb & Hr).
  exists body. split; [|done]. unfold finish.
  destruct (loop_stop _ _) as [e|]; simpl.
  - by rewrite app_nil_r.
  - destruct (wb_Flush wb _) as [err w4]. simpl. by rewrite <- app_assoc.
Qed.

(** C4: the startup synchronization inside [RPCClient], with the cache
    opened.  There is one [List] call, for status DONE and the client's
    namespace as prefix.  If it fails, or no batch can be opened, the
    cache is closed and construction fails with that error.  Otherwise
    the names of the streamed records whose namespace is the client's are
    staged in the one batch, in stream order; the external state is the
    one this staging leaves, and the calls that do it only read the
    stream and hand exactly those names to the batch.  If a staging
    fails, or the stream does not end in [io.EOF], the batch is discarded
    without a flush, the cache is closed and construction fails with that
    error.  If all went well the batch is flushed, after the whole stream
    was read, and discarded; a failed flush closes the cache and fails
    construction, and else the client is returned. *)
Theorem RPCClient_sync (r : V1Client) (o : option ClientOptions)
    (u : string) (w : W) :
  let opt := norm_val o u in
  let path := filepath_Join (Dir opt) "cache" in
  let req := list_request opt in
  Namespace opt = Namespace (default zero o) /\
  match cache_OpenBadger path w with
  | (inl e, w1) =>
      RPCClient r o u w = (Returns (inl e), w1, [CallOpenBadger path])
  | (inr ch, w1) =>
      let c := {| rpc := r; opt := opt; cache := Some ch;
                  ownCC := None |} in
      match rpc_List r req w1 with
      | (inl e, w2) =>
          RPCClient r o u w =
            (Returns (inl e), (cache_Close ch w2).2,
             [CallOpenBadger path; CallList r req; CallCacheClose ch])
      | (inr res, w2) =>
          match cache_AddBatch ch w2 with
          | (inl e, w3) =>
              RPCClient r o u w =
                (Returns (inl e), (cache_Close ch w3).2,
                 [CallOpenBadger path; CallList r req; CallAddBatch ch;
                  CallCacheClose ch])
          | (inr wb, w3) =>
              let names := matching opt (rpc.items res) in
              let staged := stage wb names w3 in
              let opened :=
                [CallOpenBadger path; CallList r req; CallAddBatch ch] in
              exists body,
                streaming wb body /\
                batch_adds body = (wb,.) <$> staged.2 /\
                staged.2 `prefix_of` names /\
                match staged.1.1 with
                | Some e =>
                    (* a staging failed *)
                    RPCClient r o u w =
                      (Returns (inl e),
                       (cache_Close ch (wb_Discard wb staged.1.2)).2,
                       opened ++ body ++
                         [CallBatchDiscard wb; CallCacheClose ch])
                | None =>
                    staged.2 = names /\
                    recvs body = S (length (rpc.items res)) /\
                    if decide (rpc.ending res = EOF) then
                      let flushed := wb_Flush wb staged.1.2 in
                      match flushed.1 with
                      | Some e =>
                          (* the flush failed *)
                          RPCClient r o u w =
                            (Returns (inl e),
                             (cache_Close ch (wb_Discard wb flushed.2)).2,
                             opened ++ body ++
                               [CallBatchFlush wb; CallBatchDiscard wb;
                                CallCacheClose ch])
                      | None =>
                          RPCClient r o u w =
                            (Returns (inr c), wb_Discard wb flushed.2,
                             opened ++ body ++
                               [CallBatchFlush wb; CallBatchDiscard wb])
                      end
                    else
                      (* the stream broke off *)
                      RPCClient r o u w =
                        (Returns (inl (rpc.ending res)),
                         (cache_Close ch (wb_Discard wb staged.1.2)).2,
                         opened ++ body ++
                           [CallBatchDiscard wb; CallCacheClose ch])
                end
          end
      end
  end.
Proof.
  intros opt path req. split; [apply OptionsFacts.norm_val_Namespace|].
  unfold RPCClient. fold opt. fold path. run.
  destruct (cache_OpenBadger path w) as [[e|ch] w1]; simpl; [done|].
  set (c := {| rpc := r; opt := opt; cache := Some ch; ownCC := None |}).
  pose proof (fetchDone_pinned c ch w1 eq_refl) as Hf. simpl in Hf.
  fold req in Hf.
  destruct (rpc_List r req w1) as [[e|res] w2].
  { rewrite Hf. simpl. by destruct (cache_Close ch w2). }
  destruct (cache_AddBatch ch w2) as [[e|wb] w3].
  { rewrite Hf. simpl. by destruct (cache_Close ch w3). }
  destruct Hf as (body & -> & Hs & Hb & Hr).
  destruct (stage_tried wb (matching opt (rpc.items res)) w3) as [Hp Hall].
  exists body. split; [done|]. split; [done|]. split; [done|].
  unfold finish, loop_stop. simpl.
  destruct (stage wb (matching opt (rpc.items res)) w3) as [[st w4] tried].
  simpl in *. destruct st as [e|]; simpl.
  - destruct (cache_Close ch (wb_Discard wb w4)) as [e2 w5]. simpl.
    by rewrite <- !app_assoc.
  - split; [by apply Hall|]. split; [by apply Hr|].
    destruct (decide (rpc.ending res = EOF)) as [Heof|Hne]; simpl.
    + destruct (wb_Flush wb w4) as [[e|] w5]; simpl.
      * destruct (cache_Close ch (wb_Discard wb w5)) as [e2 w6]. simpl.
        by rewrite <- !app_assoc.
      * by rewrite app_nil_r.
    + destruct (cache_Close ch (wb_Discard wb w4)) as [e2 w5]. simpl.
      by rewrite <- !app_assoc.
Qed.

(** [Close] without a connection of its own. *)
Lemma Close_cache_only c ch (w : W) :
  cache c = Some ch -> ownCC c = None ->
  Close c w =
    (Returns (cache_Close ch w).1, (cache_Close ch w).2,
     [CallCacheClose ch]).
Proof.
  intros Hc Ho. unfold Close. rewrite Hc, Ho. run.
  destruct (cache_Close ch w) as [[e|] w1]; reflexivity.
Qed.

(** [Close] with a connection of its own. *)
Lemma Close_both c ch cc (w : W) :
  cache c = Some ch -> ownCC c = Some cc ->
  Close c w =
    (Returns (match (cc_Close cc (cache_Close ch w).2).1 with
              | Some e => Some e
              | None => (cache_Close ch w).1
              end),
     (cc_Close cc (cache_Close ch w).2).2,
     [CallCacheClose ch; CallConnClose cc]).
Proof.
  intros Hc Ho. unfold Close. rewrite Hc, Ho. run.
  destruct (cache_Close ch w) as [[e|] w1]; simpl;
    destruct (cc_Close cc w1) as [[e2|] w2]; reflexivity.
Qed.

(** A client from [RPCClient] has a cache and no connection of its
    own. *)
Lemma RPCClient_fields r o u (w : W) c :
  result (RPCClient r o u w) = Returns (inr c) ->
  is_Some (cache c) /\ ownCC c = None.
Proof.
  unfold RPCClient. run.
  destruct (cache_OpenBadger _ w) as [[e|ch] w1]; simpl; [discriminate|].
  match goal with
  | |- context [fetchDone ?c0 w1] =>
      pose proof (fetchDone_pinned c0 ch w1 eq_refl) as Hf; simpl in Hf;
      assert (Hsome : exists err w2 cs,
                fetchDone c0 w1 = (Returns err, w2, cs))
  end.
  { destruct (rpc_List _ _ w1) as [[e|res] w2]; [eauto|].
    destruct (cache_AddBatch ch w2) as [[e|wb] w3]; [eauto|].
    destruct Hf as (body & -> & _). eauto. }
  destruct Hsome as (err & w2 & cs & ->). simpl.
  destruct err as [e|]; simpl.
  - destruct (cache_Close ch w2). discriminate.
  - intros [= <-]. simpl. eauto.
Qed.

(** A client from [DialClient] has a cache and owns the connection
    that was dialed. *)
Lemma DialClient_fields target o u dialOpt (w : W) c :
  result (DialClient target o u dialOpt w) = Returns (inr c) ->
  is_Some (cache c) /\
  exists cc w1,
    grpc_DialContext target dialOpt w = (inr cc, w1) /\
    ownCC c = Some cc.
Proof.
  unfold DialClient. run.
  destruct (grpc_DialContext target dialOpt w) as [[e|cc] w1]; simpl;
    [discriminate|].
  unfold WrapClient.
  pose proof (RPCClient_fields (NewV1Client cc) o u w1) as Hf.
  destruct (RPCClient (NewV1Client cc) o u w1) as [[[out|p] w2] cs];
    simpl in *; [|discriminate].
  destruct out as [e|ci]; simpl.
  - destruct (cc_Close cc w2). discriminate.
  - intros [= <-]. simpl. destruct (Hf ci eq_refl) as [Hc _].
    split; [done|]. eauto.
Qed.

(** C8: [Close] closes the cache, and then the connection exactly
    when the client has one of its own, whether or not closing the
    cache failed; it returns the connection's failure if there is
    one, else the cache's, else nil.  Clients made by [RPCClient] and
    [WrapClient] have no connection of their own; a client made by
    [DialClient] owns the connection it dialed. *)
Theorem Close_attempts_both (c : client) (ch : Cache) (w : W) :
  cache c = Some ch ->
  (ownCC c = None ->
   Close c w =
     (Returns (cache_Close ch w).1, (cache_Close ch w).2,
      [CallCacheClose ch])) /\
  (forall cc,
     ownCC c = Some cc ->
     Close c w =
       (Returns (match (cc_Close cc (cache_Close ch w).2).1 with
                 | Some e => Some e
                 | None => (cache_Close ch w).1
                 end),
        (cc_Close cc (cache_Close ch w).2).2,
        [CallCacheClose ch; CallConnClose cc])) /\
  (forall r o u w0 c0,
     result (RPCClient r o u w0) = Returns (inr c0) ->
     is_Some (cache c0) /\ ownCC c0 = None) /\
  (forall cc o u w0 c0,
     result (WrapClient cc o u w0) = Returns (inr c0) ->
     is_Some (cache c0) /\ ownCC c0 = None) /\
  (forall target o u dialOpt w0 c0,
     result (DialClient target o u dialOpt w0) = Returns (inr c0) ->
     is_Some (cache c0) /\
     exists cc w1,
       grpc_DialContext target dialOpt w0 = (inr cc, w1) /\
       ownCC c0 = Some cc).
Proof.
  intros Hc. repeat apply conj.
  - intros Ho. by apply Close_cache_only.
  - intros cc Ho. by apply Close_both.
  - intros r o u w0 c0. apply RPCClient_fields.
  - intros cc o u w0 c0. apply RPCClient_fields.
  - intros target o u dialOpt w0 c0. apply DialClient_fields.
Qed.

End Startup.

End startupFacts.

(** ** Lease times *)

Module leaseTimeFacts.
Import Exec Time Options.

(** C7, as the code has it: the adapter computes the expiration it
    hands to the backend as its own clock plus the request's TTL in
    whole seconds, in [Acquire] and in [Renew]; the expiration of a
    wire handle is the backend's expiration in milliseconds since the
    epoch, as an [int64]; and the TTL the client sends is its
    configured duration in whole seconds reduced to 32 bits, which is
    that number of seconds when the duration is below 2^32 seconds. *)
Theorem lease_time_arithmetic :
  (forall B (HB : service.Backend B) ttl (w : service.World B),
     Int.in_uint32 ttl ->
     service.expTime ttl w =
       (Returns (Add (service.clock w) (ttl * Second)), w, [])) /\
  (forall B (HB : service.Backend B) req (w : service.World B),
     rpc.AcquireRequest_Owner req <> "" ->
     rpc.AcquireRequest_Name req <> "" ->
     Int.in_uint32 (rpc.AcquireRequest_Ttl req) ->
     calls (service.Acquire req w) =
       [service.CallAcquire (rpc.AcquireRequest_Owner req)
          (rpc.AcquireRequest_Namespace req) (rpc.AcquireRequest_Name req)
          (service.clock w + rpc.AcquireRequest_Ttl req * Second)
          (rpc.AcquireRequest_Metadata req)]) /\
  (forall B (HB : service.Backend B) req (w : service.World B) id,
     rpc.RenewRequest_Owner req <> "" ->
     uuid.FromBytes (rpc.RenewRequest_HandleId req) = inr id ->
     Int.in_uint32 (rpc.RenewRequest_Ttl req) ->
     calls (service.Renew req w) =
       [service.CallRenew (rpc.RenewRequest_Owner req) id
          (service.clock w + rpc.RenewRequest_Ttl req * Second)
          (rpc.RenewRequest_Metadata req)]) /\
  (forall d,
     exists h,
       service.convertHandle (Some d) = Returns h /\
       rpc.ExpTime h = Int.int64 (UnixMilli (service.ExpTime d)) /\
       (Int.in_int64 (UnixMilli (service.ExpTime d)) ->
        rpc.ExpTime h = UnixMilli (service.ExpTime d))) /\
  (forall o,
     ttlSeconds o = (TTL o ÷ Second) mod 2 ^ 32 /\
     (0 <= TTL o < 2 ^ 32 * Second -> ttlSeconds o = TTL o ÷ Second)) /\
  (forall (E : accord.Env) c name meta (w : accord.W) r req,
     In (accord.CallAcquire r req) (calls (accord.Acquire c name meta w)) ->
     rpc.AcquireRequest_Ttl req = ttlSeconds (accord.opt c)).
Proof.
  repeat apply conj.
  - intros B HB ttl w Httl. rewrite serviceFacts.expTime_run.
    by rewrite TimeFacts.seconds_fit.
  - intros B HB req w Ho Hn Httl.
    rewrite (serviceFacts.Acquire_valid req w Ho Hn). unfold calls. simpl.
    by rewrite TimeFacts.seconds_fit.
  - intros B HB req w id Ho Hid Httl. unfold service.Renew.
    rewrite decide_False by done. rewrite Hid. serviceFacts.run.
    destruct (service.backend_Renew _ _ _ _ _) as [[e|] b]; simpl;
      unfold Add; by rewrite TimeFacts.seconds_fit.
  - intros d. exists (serviceFacts.wire d).
    split; [apply serviceFacts.convertHandle_wire|].
    split; [reflexivity|]. intros Hr. simpl. by apply IntFacts.int64_id.
  - intros o. split; [reflexivity|]. intros Hr. unfold ttlSeconds.
    apply IntFacts.uint32_id. unfold Int.in_uint32, Second in *.
    split.
    + apply Z.quot_pos; lia.
    + apply Z.quot_lt_upper_bound; lia.
  - intros E c name meta w r req Hin.
    apply accordFacts.Acquire_sends in Hin as [_ ->]. reflexivity.
Qed.

End leaseTimeFacts.

(** ** Runs on the test doubles *)

Module Examples.
Import Exec Time Options Doubles.

(** The three outcomes of the scripted backend, translated. *)
Lemma Acquire_translates_outcome_witness :
  let req := sample_acquire "worker-1" "job-1" in
  rpc.AcquireRequest_Owner req <> "" /\
  rpc.AcquireRequest_Name req <> "" /\
  result (service.Acquire req (sample_backend (None, Some ErrAcquired))) =
    Returns (inr {| rpc.AcquireResponse_Status := rpc.Status_HELD;
                    rpc.AcquireResponse_Handle := None |}) /\
  result (service.Acquire req (sample_backend (None, Some ErrDone))) =
    Returns (inr {| rpc.AcquireResponse_Status := rpc.Status_DONE;
                    rpc.AcquireResponse_Handle := None |}) /\
  result (service.Acquire req (sample_backend (Some sample_data, None))) =
    Returns (inr {| rpc.AcquireResponse_Status := rpc.Status_OK;
                    rpc.AcquireResponse_Handle :=
                      Some (sample_handle "batch" "job-1" sample_bytes) |}).
Proof.
  intros req.
  assert (Ho : rpc.AcquireRequest_Owner req <> "") by discriminate.
  assert (Hn : rpc.AcquireRequest_Name req <> "") by discriminate.
  split; [exact Ho|]. split; [exact Hn|].
  split; [|split].
  - apply (proj1 (serviceFacts.Acquire_translates_outcome req
                    (sample_backend (None, Some ErrAcquired)) Ho Hn) None).
    reflexivity.
  - apply (proj1 (proj2 (serviceFacts.Acquire_translates_outcome req
                    (sample_backend (None, Some ErrDone)) Ho Hn)) None).
    reflexivity.
  - etrans.
    + apply (proj1 (proj2 (proj2 (serviceFacts.Acquire_translates_outcome req
                      (sample_backend (Some sample_data, None)) Ho Hn)))
               sample_data).
      reflexivity.
    + reflexivity.
Defined.

(** Requests without an owner, and with a three-byte handle identifier,
    never reach the scripted backend. *)
Lemma invalid_requests_rejected_witness :
  let w := sample_backend (Some sample_data, None) in
  (exists msg,
     service.Acquire (sample_acquire "" "job-1") w =
       (Returns (inl (StatusError InvalidArgument msg)), w, [])) /\
  (exists msg,
     service.Renew
       {| rpc.RenewRequest_Owner := "worker-1";
          rpc.RenewRequest_HandleId := [x01; x02; x03]%byte;
          rpc.RenewRequest_Ttl := 600;
          rpc.RenewRequest_Metadata := ∅ |} w =
       (Returns (inl (StatusError InvalidArgument msg)), w, [])) /\
  (exists msg,
     service.Done
       {| rpc.DoneRequest_Owner := "";
          rpc.DoneRequest_HandleId := sample_bytes;
          rpc.DoneRequest_Metadata := ∅ |} w =
       (Returns (inl (StatusError InvalidArgument msg)), w, [])).
Proof.
  intros w.
  destruct (serviceFacts.invalid_requests_rejected w) as (Ha & Hr & Hd).
  split; [|split].
  - apply Ha. left. reflexivity.
  - apply Hr. right. simpl. lia.
  - apply Hd. left. reflexivity.
Defined.

(** A name the cache holds: [ErrDone], and the remote end saw no call. *)
Lemma Acquire_cached_witness :
  let w := sample_world ["job-1"] (inl (Failure "unreachable"))
             (inl (Failure "unreachable")) no_faults in
  accord.cache (sample_client None) = Some tt /\
  (accord.cache_Contains tt "job-1" w).1 = (true, None) /\
  accord.Acquire (sample_client None) "job-1" ∅ w =
    (Returns (inl ErrDone), w, [accord.CallContains tt "job-1"]) /\
  remote_calls w = 0%nat.
Proof.
  intros w.
  assert (Hl : (accord.cache_Contains tt "job-1" w).1 = (true, None))
    by (vm_compute; reflexivity).
  split; [reflexivity|]. split; [exact Hl|]. split; [|reflexivity].
  apply (proj1 (accordFacts.Acquire_cached (sample_client None) tt "job-1"
                  ∅ w eq_refl) Hl).
Defined.

(** A DONE response: the name is inserted and [ErrDone] returned. *)
Lemma Acquire_maps_status_witness :
  let w := sample_world [] (reply_with rpc.Status_DONE None) (inl EOF)
             no_faults in
  let run := accord.Acquire (sample_client None) "job-1" ∅ w in
  accord.cache_Contains tt "job-1" w = ((false, None), w) /\
  result run = Returns (inl ErrDone) /\
  bool_decide ("job-1" ∈ names (state run)) = true /\
  calls run =
    [accord.CallContains tt "job-1";
     accord.CallAcquire tt
       (accordFacts.acquire_request (sample_client None) "job-1" ∅);
     accord.CallAdd tt "job-1"].
Proof.
  intros w run.
  assert (Hl : accord.cache_Contains tt "job-1" w = ((false, None), w))
    by (vm_compute; reflexivity).
  split; [exact Hl|].
  destruct (accordFacts.Acquire_maps_status (sample_client None) tt "job-1"
              ∅ w w (remote_called w)
              {| rpc.AcquireResponse_Status := rpc.Status_DONE;
                 rpc.AcquireResponse_Handle := None |}
              eq_refl Hl eq_refl) as (_ & Hdone & _).
  specialize (Hdone eq_refl).
  unfold run. rewrite Hdone. unfold result, state, calls.
  simpl fst. simpl snd.
  split; [reflexivity|]. split; [vm_compute; reflexivity|reflexivity].
Defined.

(** C2 as stated fails: with a DONE response and a cache insertion that
    fails, [Acquire] returns the insertion's error and not [ErrDone];
    with an OK response whose handle identifier has three bytes it
    returns nothing at all. *)
Lemma Acquire_maps_status_counterexample :
  let c := sample_client None in
  let w := sample_world [] (reply_with rpc.Status_DONE None) (inl EOF)
             (fault_at OpAdd (Failure "disk full")) in
  let w' := sample_world []
              (reply_with rpc.Status_OK
                 (Some (sample_handle "batch" "job-1" [x01; x02; x03]%byte)))
              (inl EOF) no_faults in
  (accord.cache_Contains tt "job-1" w).1 = (false, None) /\
  (accord.rpc_Acquire tt (accordFacts.acquire_request c "job-1" ∅) w).1 =
    reply_with rpc.Status_DONE None /\
  result (accord.Acquire c "job-1" ∅ w) = Returns (inl (Failure "disk full")) /\
  result (accord.Acquire c "job-1" ∅ w) <> Returns (inl ErrDone) /\
  (accord.cache_Contains tt "job-1" w').1 = (false, None) /\
  result (accord.Acquire c "job-1" ∅ w') =
    Panics (PanicError (InvalidUUID 3)) /\
  (forall x, result (accord.Acquire c "job-1" ∅ w') <> Returns x).
Proof.
  intros c w w'.
  assert (Hrun : result (accord.Acquire c "job-1" ∅ w) =
                 Returns (inl (Failure "disk full"))) by reflexivity.
  assert (Hrun' : result (accord.Acquire c "job-1" ∅ w') =
                  Panics (PanicError (InvalidUUID 3))) by reflexivity.
  split; [reflexivity|]. split; [reflexivity|]. split; [exact Hrun|].
  split; [rewrite Hrun; discriminate|]. split; [reflexivity|].
  split; [exact Hrun'|]. intros x. rewrite Hrun'. discriminate.
Qed.

(** An OK response without a handle, and one with a three-byte
    identifier: both panic. *)
Lemma Acquire_ok_panics_witness :
  let c := sample_client None in
  let bad := sample_handle "batch" "job-1" [x01; x02; x03]%byte in
  let w := sample_world [] (reply_with rpc.Status_OK None) (inl EOF)
             no_faults in
  let w' := sample_world [] (reply_with rpc.Status_OK (Some bad)) (inl EOF)
              no_faults in
  result (accord.Acquire c "job-1" ∅ w) = Panics NilDereference /\
  result (accord.Acquire c "job-1" ∅ w') =
    Panics (PanicError (InvalidUUID 3)).
Proof.
  intros c bad w w'.
  assert (Hl : accord.cache_Contains tt "job-1" w = ((false, None), w))
    by (vm_compute; reflexivity).
  assert (Hl' : accord.cache_Contains tt "job-1" w' = ((false, None), w'))
    by (vm_compute; reflexivity).
  split.
  - apply (proj1 (accordFacts.Acquire_ok_panics c tt "job-1" ∅ w w
                    (remote_called w)
                    {| rpc.AcquireResponse_Status := rpc.Status_OK;
                       rpc.AcquireResponse_Handle := None |}
                    eq_refl Hl eq_refl eq_refl)).
    reflexivity.
  - apply (proj1 (proj2 (accordFacts.Acquire_ok_panics c tt "job-1" ∅ w' w'
                    (remote_called w')
                    {| rpc.AcquireResponse_Status := rpc.Status_OK;
                       rpc.AcquireResponse_Handle := Some bad |}
                    eq_refl Hl' eq_refl eq_refl)) bad).
    + reflexivity.
    + simpl. lia.
Defined.

(** Both closes fail: both are made, and the connection's failure is
    the one returned. *)
Lemma Close_attempts_both_witness :
  let plan := fun op => match op with
                        | OpCacheClose => Some (Failure "cache")
                        | OpConnClose => Some (Failure "connection")
                        | _ => None
                        end in
  let w := sample_world [] (inl EOF) (inl EOF) plan in
  accord.cache (sample_client (Some tt)) = Some tt /\
  accord.Close (sample_client (Some tt)) w =
    (Returns (Some (Failure "connection")), w,
     [accord.CallCacheClose tt; accord.CallConnClose tt]) /\
  accord.Close (sample_client None) w =
    (Returns (Some (Failure "cache")), w, [accord.CallCacheClose tt]).
Proof.
  intros plan w. split; [reflexivity|]. split.
  - apply (proj1 (proj2 (startupFacts.Close_attempts_both
                           (sample_client (Some tt)) tt w eq_refl)) tt).
    reflexivity.
  - apply (proj1 (startupFacts.Close_attempts_both
                    (sample_client None) tt w eq_refl)).
    reflexivity.
Defined.

(** Ten minutes: 600 seconds on the wire, and an expiration ten minutes
    after the server's clock. *)
Lemma lease_time_arithmetic_witness :
  ttlSeconds sample_options = 600 /\
  service.expTime 600 (sample_backend (None, None)) =
    (Returns 1700000000000000000, sample_backend (None, None), []).
Proof.
  destruct leaseTimeFacts.lease_time_arithmetic
    as (Hexp & _ & _ & _ & Httl & _).
  split.
  - etrans; [apply (proj2 (Httl sample_options))|reflexivity].
    split; [vm_compute; discriminate|vm_compute; reflexivity].
  - etrans;
      [apply (Hexp ScriptedBackend scripted_backend 600
                (sample_backend (None, None)))|reflexivity].
    split; [vm_compute; discriminate|vm_compute; reflexivity].
Defined.

(** C7 as stated fails: a TTL of 2^32 seconds, which is a valid
    [Duration] and is kept by [norm], goes out as 0 seconds. *)
Lemma ttlSeconds_counterexample :
  let o := norm_val (Some {| Owner := "worker-1"; Namespace := "batch";
                             TTL := 4294967296 * Second; Dir := "data";
                             OnError := None |}) "" in
  Int.in_int64 (TTL o) /\
  TTL o ÷ Second = 4294967296 /\
  ttlSeconds o = 0 /\
  ttlSeconds o <> TTL o ÷ Second.
Proof.
  vm_compute. repeat split; try reflexivity; discriminate.
Qed.

(** *** Startup synchronization against the modelled cache *)

Lemma set_cache_id (w : World) :
  set_cache w (names w) (staged w) (cache_closed w) = w.
Proof. by destruct w. Qed.

(** With staging that does not fail, the loop stages every matching name
    behind what is already staged, touches nothing else, and stops the way
    the stream ends. *)
Lemma double_loop c items ending (w : World) :
  faults w OpBatchAdd = None ->
  exists body,
    accord.fetchDone_loop c tt items ending w =
      (Returns (if decide (ending = EOF) then None else Some ending),
       set_cache w (names w)
         (staged w ++ startupFacts.matching (accord.opt c) items)
         (cache_closed w),
       body).
Proof.
  revert w. induction items as [|h items IH]; intros w Hf; simpl.
  - accordFacts.run. rewrite app_nil_r, set_cache_id.
    destruct (decide (ending = EOF)); eauto.
  - accordFacts.run.
    destruct (decide (rpc.Namespace h = Namespace (accord.opt c))) as [Hns|Hns].
    + rewrite (startupFacts.matching_cons_eq _ _ _ Hns).
      unfold guarded. rewrite Hf. simpl.
      destruct (IH (set_cache w (names w) (staged w ++ [rpc.Name h])
                      (cache_closed w)) Hf) as [body ->].
      simpl. rewrite <- app_assoc. simpl. eauto.
    + rewrite (startupFacts.matching_cons_ne _ _ _ Hns).
      destruct (IH w Hf) as [body ->]. eauto.
Qed.

(** Construction against a remote end that streams [items] and ends
    cleanly, with no storage fault: a client is returned, and the cache
    then holds what it held before and the names of the streamed records
    in the client's namespace, and no other name. *)
Lemma double_sync_loads r o u (w : World) items :
  faults w = no_faults ->
  remote_list w = inr {| rpc.items := items; rpc.ending := EOF |} ->
  let run := accord.RPCClient r o u w in
  (exists c, result run = Returns (inr c)) /\
  (forall n,
     n ∈ names (state run) <->
     n ∈ names w \/
     exists h, h ∈ items /\ rpc.Name h = n /\
               rpc.Namespace h = Namespace (norm_val o u)) /\
  cache_closed (state run) = false.
Proof.
  intros Hf Hl run. unfold run. clear run.
  destruct w as [n s cc kc ra rl rc fl]. simpl in *. subst fl rl.
  unfold accord.RPCClient, accord.fetchDone. accordFacts.run.
  unfold guarded_val, no_faults. simpl.
  match goal with
  | |- context [accord.fetchDone_loop ?c tt items EOF ?w0] =>
      destruct (double_loop c items EOF w0) as [body ->]; [done|]
  end.
  simpl. unfold guarded. simpl.
  split; [eauto|]. split; [|done].
  intros n0. rewrite elem_of_union, elem_of_list_to_set.
  unfold startupFacts.matching. rewrite list_elem_of_fmap.
  split.
  - intros [(h & -> & Hh)|Hn]; [|by left].
    apply list_elem_of_filter in Hh as [Hns Hin]. right. eauto.
  - intros [Hn|(h & Hin & <- & Hns)]; [by right|].
    left. exists h. split; [done|]. by apply list_elem_of_filter.
Qed.

(** The same construction with a stream that breaks off with the error
    [e]: construction fails with [e], the cache holds exactly what it
    held before, and it has been closed. *)
Lemma double_sync_fails r o u (w : World) items e :
  faults w = no_faults ->
  e <> EOF ->
  remote_list w = inr {| rpc.items := items; rpc.ending := e |} ->
  let run := accord.RPCClient r o u w in
  result run = Returns (inl e) /\
  names (state run) = names w /\
  staged (state run) = [] /\
  cache_closed (state run) = true.
Proof.
  intros Hf He Hl run. unfold run. clear run.
  destruct w as [n s cc kc ra rl rc fl]. simpl in *. subst fl rl.
  unfold accord.RPCClient, accord.fetchDone. accordFacts.run.
  unfold guarded_val, no_faults. simpl.
  match goal with
  | |- context [accord.fetchDone_loop ?c tt items e ?w0] =>
      destruct (double_loop c items e w0) as [body ->]; [done|]
  end.
  rewrite decide_False by done. simpl. unfold guarded. simpl. done.
Qed.

(** Three finished records, one of them in a namespace that only has the
    client's as a prefix: that one is left out. *)
Example sync_excludes_other_namespace :
  let run := accord.RPCClient tt (Some sample_options) "generated"
               (sample_world ["job-0"] (inl EOF) (sample_stream EOF)
                  no_faults) in
  result run = Returns (inr (sample_client None)) /\
  (fun n => bool_decide (n ∈ names (state run))) <$>
    ["job-0"; "job-1"; "job-2"; "job-3"] = [true; true; false; true] /\
  calls run =
    [accord.CallOpenBadger "data/cache";
     accord.CallList tt (startupFacts.list_request sample_options);
     accord.CallAddBatch tt;
     accord.CallRecv; accord.CallBatchAdd tt "job-1";
     accord.CallRecv;
     accord.CallRecv; accord.CallBatchAdd tt "job-3";
     accord.CallRecv;
     accord.CallBatchFlush tt; accord.CallBatchDiscard tt].
Proof.
  split; [reflexivity|]. split; [vm_compute; reflexivity|reflexivity].
Qed.

(** The stream breaks off after the records: nothing is committed, and
    the cache is closed. *)
Example sync_aborts_on_stream_error :
  let run := accord.RPCClient tt (Some sample_options) "generated"
               (sample_world ["job-0"] (inl EOF)
                  (sample_stream (StatusError Unavailable "connection lost"))
                  no_faults) in
  result run = Returns (inl (StatusError Unavailable "connection lost")) /\
  (fun n => bool_decide (n ∈ names (state run))) <$>
    ["job-0"; "job-1"; "job-2"; "job-3"] = [true; false; false; false] /\
  cache_closed (state run) = true /\
  calls run =
    [accord.CallOpenBadger "data/cache";
     accord.CallList tt (startupFacts.list_request sample_options);
     accord.CallAddBatch tt;
     accord.CallRecv; accord.CallBatchAdd tt "job-1";
     accord.CallRecv;
     accord.CallRecv; accord.CallBatchAdd tt "job-3";
     accord.CallRecv;
     accord.CallBatchDiscard tt; accord.CallCacheClose tt].
Proof.
  split; [reflexivity|]. split; [vm_compute; reflexivity|].
  split; reflexivity.
Qed.

(** A staging that fails part-way: the batch is discarded, the name staged
    before the failure never shows, and construction fails with the
    staging's error. *)
Example sync_aborts_on_staging_error :
  let run := accord.RPCClient tt (Some sample_options) "generated"
               (sample_world [] (inl EOF) (sample_stream EOF)
                  (fault_at OpBatchAdd (Failure "disk full"))) in
  result run = Returns (inl (Failure "disk full")) /\
  bool_decide ("job-1" ∈ names (state run)) = false /\
  calls run =
    [accord.CallOpenBadger "data/cache";
     accord.CallList tt (startupFacts.list_request sample_options);
     accord.CallAddBatch tt;
     accord.CallRecv; accord.CallBatchAdd tt "job-1";
     accord.CallBatchDiscard tt; accord.CallCacheClose tt].
Proof.
  split; [reflexivity|]. split; [vm_compute; reflexivity|reflexivity].
Qed.

(** A client that dialed owns its connection, and closes it. *)
Example dialed_client_closes_connection :
  let w := sample_world [] (inl EOF) (sample_stream EOF) no_faults in
  let dial := accord.DialClient "coordinator:8432" None "generated" [] w in
  result dial =
    Returns (inr {| accord.rpc := tt;
                    accord.opt := norm_val None "generated";
                    accord.cache := Some tt;
                    accord.ownCC := Some tt |}) /\
  forall c, result dial = Returns (inr c) ->
    result (accord.Close c (state dial)) = Returns None /\
    calls (accord.Close c (state dial)) =
      [accord.CallCacheClose tt; accord.CallConnClose tt] /\
    conn_closed (state (accord.Close c (state dial))) = true.
Proof.
  intros w dial. split; [reflexivity|].
  intros c [= <-]. repeat split; reflexivity.
Qed.

End Examples.

(** ** More on the service adapter *)

Module serviceMore.
Import Exec Time service serviceFacts.

Section Adapter.
Context {B : Type} `{Backend B}.

(** A [Renew] that passes validation makes one backend call, for the
    identifier the request's bytes decode to and an expiration of the
    server's clock plus the TTL in seconds; it returns the backend's error
    as it is, or the empty response. *)
Theorem Renew_delegates (req : rpc.RenewRequest) (w : World B) :
  rpc.RenewRequest_Owner req <> "" ->
  length (rpc.RenewRequest_HandleId req) = 16%nat ->
  Int.in_uint32 (rpc.RenewRequest_Ttl req) ->
  exists id,
    uuid.bytes id = rpc.RenewRequest_HandleId req /\
    Renew req w =
      (Returns
         (match (backend_Renew (rpc.RenewRequest_Owner req) id
                   (clock w + rpc.RenewRequest_Ttl req * Second)
                   (rpc.RenewRequest_Metadata req) (backend w)).1 with
          | Some e => inl e
          | None => inr rpc.Build_RenewResponse
          end),
       {| backend :=
            (backend_Renew (rpc.RenewRequest_Owner req) id
               (clock w + rpc.RenewRequest_Ttl req * Second)
               (rpc.RenewRequest_Metadata req) (backend w)).2;
          clock := clock w |},
       [CallRenew (rpc.RenewRequest_Owner req) id
          (clock w + rpc.RenewRequest_Ttl req * Second)
          (rpc.RenewRequest_Metadata req)]).
Proof.
  intros Ho Hlen Httl.
  destruct (uuidFacts.FromBytes_ok _ Hlen) as (id & Hid & Hb).
  exists id. split; [exact Hb|].
  unfold Renew. rewrite decide_False by done. rewrite Hid. run.
  unfold Add. rewrite (TimeFacts.seconds_fit _ Httl).
  destruct (backend_Renew _ _ _ _ _) as [[e|] b]; reflexivity.
Qed.

(** A [Done] that passes validation makes one backend call, for the
    identifier the request's bytes decode to, without reading the clock;
    it returns the backend's error as it is, or the empty response. *)
Theorem Done_delegates (req : rpc.DoneRequest) (w : World B) :
  rpc.DoneRequest_Owner req <> "" ->
  length (rpc.DoneRequest_HandleId req) = 16%nat ->
  exists id,
    uuid.bytes id = rpc.DoneRequest_HandleId req /\
    Done req w =
      (Returns
         (match (backend_Done (rpc.DoneRequest_Owner req) id
                   (rpc.DoneRequest_Metadata req) (backend w)).1 with
          | Some e => inl e
          | None => inr rpc.Build_DoneResponse
          end),
       {| backend :=
            (backend_Done (rpc.DoneRequest_Owner req) id
               (rpc.DoneRequest_Metadata req) (backend w)).2;
          clock := clock w |},
       [CallDone (rpc.DoneRequest_Owner req) id
          (rpc.DoneRequest_Metadata req)]).
Proof.
  intros Ho Hlen.
  destruct (uuidFacts.FromBytes_ok _ Hlen) as (id & Hid & Hb).
  exists id. split; [exact Hb|].
  unfold Done. rewrite decide_False by done. rewrite Hid. run.
  destruct (backend_Done _ _ _ _) as [[e|] b]; reflexivity.
Qed.

(** Outside the three outcomes that [Acquire] translates: a backend error
    that is neither sentinel is returned as it is, with no response, and
    a backend that returns neither a record nor an error makes [Acquire]
    panic on the nil record. *)
Theorem Acquire_other_outcomes (req : rpc.AcquireRequest) (w : World B) :
  rpc.AcquireRequest_Owner req <> "" ->
  rpc.AcquireRequest_Name req <> "" ->
  (forall data e,
     (acquire_call req (clock w) (backend w)).1 = (data, Some e) ->
     e <> ErrDone -> e <> ErrAcquired ->
     result (Acquire req w) = Returns (inl e)) /\
  ((acquire_call req (clock w) (backend w)).1 = (None, None) ->
   result (Acquire req w) = Panics NilDereference).
Proof.
  intros Ho Hn. rewrite (Acquire_valid req w Ho Hn).
  unfold result, translate. simpl. split.
  - intros data e -> Hd Ha. simpl. by destruct e.
  - intros ->. reflexivity.
Qed.

(** The checks are made in a fixed order and each has its own message:
    the owner first, in all three procedures, then the name or the handle
    identifier. *)
Theorem validation_order (w : World B) :
  (forall req,
     rpc.AcquireRequest_Owner req = "" ->
     result (Acquire req w) =
       Returns (inl (StatusError InvalidArgument "invalid owner"))) /\
  (forall req,
     rpc.AcquireRequest_Owner req <> "" -> rpc.AcquireRequest_Name req = "" ->
     result (Acquire req w) =
       Returns (inl (StatusError InvalidArgument "invalid name"))) /\
  (forall req,
     rpc.RenewRequest_Owner req = "" ->
     result (Renew req w) =
       Returns (inl (StatusError InvalidArgument "invalid owner"))) /\
  (forall req,
     rpc.RenewRequest_Owner req <> "" ->
     length (rpc.RenewRequest_HandleId req) <> 16%nat ->
     result (Renew req w) =
       Returns (inl (StatusError InvalidArgument "invalid handle ID"))) /\
  (forall req,
     rpc.DoneRequest_Owner req = "" ->
     result (Done req w) =
       Returns (inl (StatusError InvalidArgument "invalid owner"))) /\
  (forall req,
     rpc.DoneRequest_Owner req <> "" ->
     length (rpc.DoneRequest_HandleId req) <> 16%nat ->
     result (Done req w) =
       Returns (inl (StatusError InvalidArgument "invalid handle ID"))).
Proof.
  repeat apply conj.
  - intros req Ho. unfold Acquire. by rewrite decide_True.
  - intros req Ho Hn. unfold Acquire.
    rewrite decide_False by done. by rewrite decide_True.
  - intros req Ho. unfold Renew. by rewrite decide_True.
  - intros req Ho Hlen. unfold Renew. rewrite decide_False by done.
    by rewrite (uuidFacts.FromBytes_err _ Hlen).
  - intros req Ho. unfold Done. by rewrite decide_True.
  - intros req Ho Hlen. unfold Done. rewrite decide_False by done.
    by rewrite (uuidFacts.FromBytes_err _ Hlen).
Qed.

End Adapter.

(** The expiration on the wire is the backend's expiration rounded down to
    a whole millisecond, also for instants before the epoch: it is never
    later than the backend's, and less than a millisecond earlier. *)
Theorem wire_expiration_rounds_down (d : HandleData) (h : rpc.Handle) :
  convertHandle (Some d) = Returns h ->
  Int.in_int64 (UnixMilli (ExpTime d)) ->
  rpc.ExpTime h * 1000000 <= ExpTime d < (rpc.ExpTime h + 1) * 1000000.
Proof.
  rewrite convertHandle_wire. intros [= <-] Hr. simpl.
  rewrite (IntFacts.int64_id _ Hr). unfold UnixMilli.
  pose proof (Z.div_mod (ExpTime d) 1000000 ltac:(lia)) as Hdm.
  pose proof (Z.mod_pos_bound (ExpTime d) 1000000 ltac:(lia)) as Hm.
  lia.
Qed.

(** The identifier on the wire has 16 bytes and decodes back to the
    backend's identifier; the acquisition count on the wire is the
    backend's count reduced to 32 bits, which is the count itself when
    that is a [uint32]. *)
Theorem wire_identifier_round_trip (d : HandleData) (h : rpc.Handle) :
  convertHandle (Some d) = Returns h ->
  length (rpc.Id h) = 16%nat /\
  uuid.FromBytes (rpc.Id h) = inr (ID d) /\
  Int.in_uint32 (rpc.NumAcquired h) /\
  rpc.NumAcquired h = NumAcquired d mod 2 ^ 32.
Proof.
  rewrite convertHandle_wire. intros [= <-]. simpl.
  split; [apply uuidFacts.bytes_length|].
  split; [apply uuidFacts.FromBytes_bytes|].
  split; [apply IntFacts.uint32_range|reflexivity].
Qed.

End serviceMore.

(** ** More on the client options *)

Module OptionsMore.
Import Time Options OptionsFacts.

(** What [norm] establishes: with a non-empty generated identifier, the
    object it returns has a non-empty owner, a TTL of at least one second
    and a non-empty directory; the namespace and the error handler are
    the caller's. *)
Theorem norm_establishes (o : option loc) (u : string) (h : store)
    (p : ClientOptions) :
  u <> "" ->
  (norm o u h).2 !! (norm o u h).1 = Some p ->
  Owner p <> "" /\
  Second <= TTL p /\
  Dir p <> "" /\
  Namespace p = Namespace (given h o) /\
  OnError p = OnError (given h o).
Proof.
  intros Hu. rewrite norm_lookup. intros [= <-].
  split; [|split; [|split; [|split]]].
  - rewrite norm_val_Owner. by case_decide.
  - apply norm_val_TTL_min.
  - rewrite norm_val_Dir. by case_decide.
  - apply norm_val_Namespace.
  - apply norm_val_OnError.
Qed.

Lemma norm_val_fixed o u u' :
  u <> "" -> norm_val (Some (norm_val o u)) u' = norm_val o u.
Proof.
  intros Hu.
  pose proof (norm_val_Owner o u) as Ho.
  pose proof (norm_val_TTL_min o u) as Ht.
  pose proof (norm_val_Dir o u) as Hd.
  assert (Owner (norm_val o u) <> "").
  { rewrite Ho. by destruct (decide (Owner (default zero o) = "")). }
  assert (Dir (norm_val o u) <> "").
  { rewrite Hd. by destruct (decide (Dir (default zero o) = "")). }
  clear Ho Hd.
  destruct (norm_val o u) as [ow ns ttl dir cb] eqn:E. simpl in *.
  unfold norm_val. simpl.
  destruct (decide (ow = "")); [done|]. simpl.
  destruct (ttl <? Second) eqn:Hlt; [apply Z.ltb_lt in Hlt; lia|]. simpl.
  by destruct (decide (dir = "")).
Qed.

(** Normalizing twice is normalizing once: [norm] applied to the object
    that [norm] returned gives a second object with the same contents,
    whatever the second generated identifier is, and leaves the first
    object as it was. *)
Theorem norm_idempotent (o : option loc) (u u' : string) (h : store) :
  u <> "" ->
  let first := norm o u h in
  let second := norm (Some first.1) u' first.2 in
  second.1 <> first.1 /\
  second.2 !! second.1 = first.2 !! first.1 /\
  second.2 !! first.1 = first.2 !! first.1.
Proof.
  intros Hu first second.
  pose proof (norm_lookup o u h) as Hl1. fold first in Hl1.
  pose proof (norm_fresh (Some first.1) u' first.2) as Hf. fold second in Hf.
  assert (Hne : second.1 <> first.1).
  { intros E. apply Hf. rewrite E. apply elem_of_dom. eauto. }
  split; [exact Hne|]. split.
  - unfold second. rewrite norm_lookup. unfold deref. rewrite Hl1. simpl.
    by rewrite norm_val_fixed.
  - rewrite Hl1. by apply (proj1 (norm_frame (Some first.1) u' first.2)).
Qed.

(** The TTL a normalized client sends.  A configured TTL below one second,
    negative ones included, goes out as 600 seconds; one from a second up
    to below 2^32 seconds goes out as its whole seconds, which is at least
    1 and within a second of the configured TTL. *)
Theorem normalized_ttlSeconds (o : option ClientOptions) (u : string) :
  (TTL (default zero o) < Second -> ttlSeconds (norm_val o u) = 600) /\
  (Second <= TTL (default zero o) < 2 ^ 32 * Second ->
   1 <= ttlSeconds (norm_val o u) < 2 ^ 32 /\
   ttlSeconds (norm_val o u) * Second <= TTL (default zero o)
     < (ttlSeconds (norm_val o u) + 1) * Second).
Proof.
  unfold ttlSeconds. rewrite norm_val_TTL. unfold Minute, Second. split.
  - intros Hlt. rewrite decide_False by lia. reflexivity.
  - intros [Hge Hlt]. rewrite decide_True by lia.
    set (t := TTL (default zero o)) in *.
    rewrite Z.quot_div_nonneg by lia.
    pose proof (Z.div_mod t 1000000000 ltac:(lia)) as Hdm.
    pose proof (Z.mod_pos_bound t 1000000000 ltac:(lia)) as Hm.
    assert (Hq : 1 <= t / 1000000000 < 2 ^ 32).
    { split.
      - apply Z.div_le_lower_bound; lia.
      - apply Z.div_lt_upper_bound; lia. }
    rewrite IntFacts.uint32_id by (unfold Int.in_uint32; lia).
    lia.
Qed.

End OptionsMore.

(** ** More on the client *)

Module accordMore.
Import Exec Time Options accord accordFacts startupFacts.

Section Client.
Context `{E : Env}.

(** Failures are passed on as they are.  A failing cache lookup ends
    [Acquire] with the lookup's error and no remote call, whatever the
    lookup's boolean says; a failing remote call ends it with the remote
    call's error and no call on the cache after the lookup. *)
Theorem Acquire_passes_failures_on (c : client) (ch : Cache) (name : string)
    (meta : rpc.StringMap) (w : W) :
  cache c = Some ch ->
  (forall found e w1,
     cache_Contains ch name w = ((found, Some e), w1) ->
     Acquire c name meta w =
       (Returns (inl e), w1, [CallContains ch name])) /\
  (forall e w1 w2,
     cache_Contains ch name w = ((false, None), w1) ->
     rpc_Acquire (rpc c) (acquire_request c name meta) w1 = (inl e, w2) ->
     Acquire c name meta w =
       (Returns (inl e), w2,
        [CallContains ch name;
         CallAcquire (rpc c) (acquire_request c name meta)])).
Proof.
  intros Hc. rewrite (Acquire_run c ch name meta w Hc). simpl. split.
  - intros found e w1 ->. simpl. by destruct found.
  - intros e w1 w2 ->. simpl. intros ->. reflexivity.
Qed.

(** The calls of one [Acquire] are an initial part of: the lookup, the
    remote call, the insertion.  The insertion is only made for the name
    asked for, on the client's cache, after a lookup that found nothing
    and a response with status DONE. *)
Theorem Acquire_call_sequence (c : client) (ch : Cache) (name : string)
    (meta : rpc.StringMap) (w : W) :
  cache c = Some ch ->
  calls (Acquire c name meta w) `prefix_of`
    [CallContains ch name;
     CallAcquire (rpc c) (acquire_request c name meta);
     CallAdd ch name] /\
  (forall ch' n,
     In (CallAdd ch' n) (calls (Acquire c name meta w)) ->
     ch' = ch /\ n = name /\
     (cache_Contains ch name w).1 = (false, None) /\
     exists res,
       (rpc_Acquire (rpc c) (acquire_request c name meta)
          (cache_Contains ch name w).2).1 = inr res /\
       rpc.AcquireResponse_Status res = rpc.Status_DONE).
Proof.
  intros Hc. rewrite (Acquire_run c ch name meta w Hc). simpl.
  set (full := [CallContains ch name;
                CallAcquire (rpc c) (acquire_request c name meta);
                CallAdd ch name]).
  assert (P1 : [CallContains ch name] `prefix_of` full)
    by (by eexists [_; _]).
  assert (P2 : [CallContains ch name;
                CallAcquire (rpc c) (acquire_request c name meta)]
                 `prefix_of` full) by (by eexists [_]).
  destruct (cache_Contains ch name w).1 as [[|] [e|]]; simpl;
    try (split; [exact P1|intros ch' nm [Hin|[]]; discriminate]).
  destruct (rpc_Acquire _ _ _).1 as [e|res]; simpl.
  { split; [exact P2|]. intros ch' nm [Hin|[Hin|[]]]; discriminate. }
  unfold on_response.
  destruct (rpc.AcquireResponse_Status res) eqn:Hs; simpl;
    repeat case_match; simpl;
    try (split; [exact P2|intros ch' nm [Hin|[Hin|[]]]; discriminate]).
  split; [done|].
  intros ch' nm [Hin|[Hin|[Hin|[]]]]; try discriminate.
  injection Hin as <- <-. repeat split; eauto.
Qed.

(** For an [Acquire] whose lookup found nothing and whose remote call
    was answered with the response [res]: it panics exactly when the
    status is neither HELD nor DONE and the handle is absent or has an
    identifier that is not 16 bytes long.  With HELD or DONE it returns,
    whatever the handle is. *)
Theorem Acquire_panics_iff (c : client) (ch : Cache) (name : string)
    (meta : rpc.StringMap) (w w1 w2 : W) (res : rpc.AcquireResponse) :
  cache c = Some ch ->
  cache_Contains ch name w = ((false, None), w1) ->
  rpc_Acquire (rpc c) (acquire_request c name meta) w1 = (inr res, w2) ->
  (exists p, result (Acquire c name meta w) = Panics p) <->
  (rpc.AcquireResponse_Status res <> rpc.Status_HELD /\
   rpc.AcquireResponse_Status res <> rpc.Status_DONE /\
   (rpc.AcquireResponse_Handle res = None \/
    exists h,
      rpc.AcquireResponse_Handle res = Some h /\
      length (rpc.Id h) <> 16%nat)).
Proof.
  intros Hc Hl Hr.
  rewrite (Acquire_run c ch name meta w Hc). simpl.
  rewrite Hl. simpl. rewrite Hr. simpl. unfold on_response, result.
  destruct (rpc.AcquireResponse_Handle res) as [h|] eqn:Hh.
  - destruct (decide (length (rpc.Id h) = 16%nat)) as [Hlen|Hlen].
    + destruct (uuidFacts.FromBytes_ok _ Hlen) as (id & Hid & _).
      rewrite Hid.
      destruct (rpc.AcquireResponse_Status res); simpl;
        (split;
         [intros [p Hp]; discriminate
         |intros (H1 & H2 & [H3|(h' & H3 & H4)]); by simplify_eq]).
    + rewrite (uuidFacts.FromBytes_err _ Hlen).
      destruct (rpc.AcquireResponse_Status res); simpl;
        (split;
         [intros [p Hp]; try discriminate;
          (split; [done|]); (split; [done|]); right; eauto
         |intros (H1 & H2 & _); try done; eauto]).
  - destruct (rpc.AcquireResponse_Status res); simpl;
      (split;
       [intros [p Hp]; try discriminate;
        (split; [done|]); (split; [done|]); by left
       |intros (H1 & H2 & _); try done; eauto]).
Qed.

(** The status switch has no case for OK: every status other than HELD
    and DONE, a value outside the enumeration included, is handled as a
    grant, and with a decodable handle gives the handle without a call on
    the cache. *)
Theorem Acquire_status_default (c : client) (ch : Cache) (name : string)
    (meta : rpc.StringMap) (w w1 w2 : W) (res : rpc.AcquireResponse)
    (h : rpc.Handle) (id : uuid.UUID) :
  cache c = Some ch ->
  cache_Contains ch name w = ((false, None), w1) ->
  rpc_Acquire (rpc c) (acquire_request c name meta) w1 = (inr res, w2) ->
  rpc.AcquireResponse_Status res <> rpc.Status_HELD ->
  rpc.AcquireResponse_Status res <> rpc.Status_DONE ->
  rpc.AcquireResponse_Handle res = Some h ->
  uuid.FromBytes (rpc.Id h) = inr id ->
  Acquire c name meta w =
    (Returns (inr (newHandle id (rpc c) (rpc.Metadata h) (opt c))), w2,
     [CallContains ch name;
      CallAcquire (rpc c) (acquire_request c name meta)]).
Proof.
  intros Hc Hl Hr Hh Hd Hhandle Hid.
  rewrite (Acquire_run c ch name meta w Hc). simpl.
  rewrite Hl. simpl. rewrite Hr. simpl. unfold on_response.
  rewrite Hhandle, Hid.
  by destruct (rpc.AcquireResponse_Status res).
Qed.

(** [DialClient] does not leave a connection behind.  When dialing fails
    it has made the dial and nothing else; when the construction over the
    dialed connection fails, it returns that failure, and its calls are
    the dial, the calls of the construction, and the closing of the
    connection. *)
Theorem DialClient_releases_connection (target : string)
    (o : option ClientOptions) (u : string) (dialOpt : list DialOption)
    (w : W) :
  (forall e w1,
     grpc_DialContext target dialOpt w = (inl e, w1) ->
     DialClient target o u dialOpt w =
       (Returns (inl e), w1, [CallDial target dialOpt])) /\
  (forall cc w1 e,
     grpc_DialContext target dialOpt w = (inr cc, w1) ->
     result (WrapClient cc o u w1) = Returns (inl e) ->
     DialClient target o u dialOpt w =
       (Returns (inl e),
        (cc_Close cc (state (WrapClient cc o u w1))).2,
        CallDial target dialOpt :: calls (WrapClient cc o u w1)
          ++ [CallConnClose cc])).
Proof.
  split.
  - intros e w1 Hd. unfold DialClient. run. by rewrite Hd.
  - intros cc w1 e Hd Hw. unfold DialClient. run. rewrite Hd. simpl.
    destruct (WrapClient cc o u w1) as [[r w2] cs].
    unfold result, state, calls in *. simpl in *. subst r. simpl.
    by destruct (cc_Close cc w2).
Qed.

End Client.

(** How the two sides fit: a response that the service adapter returns
    from [Acquire] never makes the client panic.  Delivered to a client
    whose lookup found nothing, it ends in [ErrAcquired], in [ErrDone] or
    the insertion's error, or in a handle. *)
Theorem adapter_response_is_handled `{E : Env} {B : Type}
    `{HB : service.Backend B}
    (sreq : rpc.AcquireRequest) (sw : service.World B)
    (res : rpc.AcquireResponse)
    (c : client) (ch : Cache) (name : string) (meta : rpc.StringMap)
    (w w1 w2 : W) :
  result (service.Acquire sreq sw) = Returns (inr res) ->
  cache c = Some ch ->
  cache_Contains ch name w = ((false, None), w1) ->
  rpc_Acquire (rpc c) (acquire_request c name meta) w1 = (inr res, w2) ->
  exists out, result (Acquire c name meta w) = Returns out /\
    match rpc.AcquireResponse_Status res with
    | rpc.Status_HELD => out = inl ErrAcquired
    | rpc.Status_DONE => exists e, out = inl e
    | _ => exists h, out = inr h
    end.
Proof.
  intros Hs Hc Hl Hr.
  rewrite (Acquire_run c ch name meta w Hc). simpl.
  rewrite Hl. simpl. rewrite Hr. simpl. unfold on_response.
  destruct (decide (rpc.AcquireRequest_Owner sreq = "")) as [Ho|Ho].
  { unfold service.Acquire in Hs. rewrite decide_True in Hs by done.
    discriminate. }
  destruct (decide (rpc.AcquireRequest_Name sreq = "")) as [Hn|Hn].
  { unfold service.Acquire in Hs. rewrite decide_False in Hs by done.
    rewrite decide_True in Hs by done. discriminate. }
  rewrite (serviceFacts.Acquire_valid sreq sw Ho Hn) in Hs.
  unfold result, serviceFacts.translate in Hs. simpl in Hs.
  destruct (serviceFacts.acquire_call _ _ _).1 as [[d|] [[]|]];
    simpl in Hs; simplify_eq; simpl; eauto.
  rewrite uuidFacts.FromBytes_bytes. eauto.
Qed.

End accordMore.

(** ** The client against the modelled cache *)

Module doubleMore.
Import Exec Time Options Doubles accordFacts startupFacts.

(** The external state after a construction that streamed [items] to a
    clean end, with no storage fault. *)
Lemma double_sync_state r o u (w : World) items :
  faults w = no_faults ->
  remote_list w = inr {| rpc.items := items; rpc.ending := EOF |} ->
  state (accord.RPCClient r o u w) =
    {| names := list_to_set (matching (norm_val o u) items) ∪ names w;
       staged := []; cache_closed := false;
       conn_closed := conn_closed w; remote_acquire := remote_acquire w;
       remote_list := remote_list w; remote_calls := S (remote_calls w);
       faults := faults w |}.
Proof.
  intros Hf Hl.
  destruct w as [n s cc kc ra rl rc fl]. simpl in *. subst fl rl.
  unfold accord.RPCClient, accord.fetchDone. run.
  unfold guarded_val, no_faults. simpl.
  match goal with
  | |- context [accord.fetchDone_loop ?c tt items EOF ?w0] =>
      destruct (Examples.double_loop c items EOF w0) as [body ->]; [done|]
  end.
  reflexivity.
Qed.

(** After a construction that ended well, [Acquire] for the name of a
    streamed record in the client's namespace ends in [ErrDone] on the
    lookup alone: the remote end has seen the [List] call and nothing
    more.  For a name that was neither in the cache before nor streamed
    in the client's namespace, [Acquire] does go to the remote end. *)
Theorem synced_names_are_done r o u (w : World) items meta :
  faults w = no_faults ->
  remote_list w = inr {| rpc.items := items; rpc.ending := EOF |} ->
  exists c,
    result (accord.RPCClient r o u w) = Returns (inr c) /\
    (forall h,
       h ∈ items -> rpc.Namespace h = Namespace (norm_val o u) ->
       accord.Acquire c (rpc.Name h) meta (state (accord.RPCClient r o u w)) =
         (Returns (inl ErrDone), state (accord.RPCClient r o u w),
          [accord.CallContains tt (rpc.Name h)])) /\
    remote_calls (state (accord.RPCClient r o u w)) = S (remote_calls w) /\
    (forall name,
       name ∉ names w ->
       (forall h, h ∈ items ->
                  rpc.Namespace h = Namespace (norm_val o u) ->
                  rpc.Name h <> name) ->
       exists req,
         In (accord.CallAcquire (accord.rpc c) req)
            (calls (accord.Acquire c name meta
                      (state (accord.RPCClient r o u w))))).
Proof.
  intros Hf Hl.
  destruct (Examples.double_sync_loads r o u w items Hf Hl)
    as ([c Hc] & Hnames & _).
  pose proof (double_sync_state r o u w items Hf Hl) as Hst.
  set (w' := state (accord.RPCClient r o u w)) in *.
  destruct (RPCClient_fields r o u w c Hc) as [[[] Hcache] _].
  assert (Hlook : forall name,
            accord.cache_Contains tt name w' =
              ((bool_decide (name ∈ names w'), None), w')).
  { intros name. simpl. rewrite Hst at 1. simpl. by rewrite Hf. }
  exists c. split; [done|]. split; [|split].
  - intros h Hin Hns.
    destruct (Acquire_cached c tt (rpc.Name h) meta w' Hcache) as [Hdone _].
    rewrite Hdone; rewrite Hlook; simpl.
    + reflexivity.
    + rewrite bool_decide_eq_true_2; [done|]. apply Hnames. eauto.
  - by rewrite Hst.
  - intros name Hold Hnew.
    rewrite (Acquire_run c tt name meta w' Hcache). cbv zeta.
    rewrite Hlook. cbn [fst snd].
    rewrite bool_decide_eq_false_2.
    2:{ rewrite Hnames. intros [Hn|(h & Hin & Hname & Hns)]; [done|].
        by apply (Hnew h). }
    exists (acquire_request c name meta).
    destruct (accord.rpc_Acquire _ _ w').1 as [e|res]; simpl.
    + right. by left.
    + unfold on_response.
      destruct (rpc.AcquireResponse_Status res); simpl;
        repeat case_match; simpl; right; by left.
Qed.

(** A DONE response is remembered: with no storage fault, after an
    [Acquire] that was answered DONE the next [Acquire] for the name ends
    in [ErrDone] on the lookup alone, so that the remote end has seen one
    call in all. *)
Theorem done_is_remembered (c : accord.client) (name : string)
    (meta meta' : rpc.StringMap) (w : World) (h : option rpc.Handle) :
  accord.cache c = Some tt ->
  faults w = no_faults ->
  name ∉ names w ->
  remote_acquire w = reply_with rpc.Status_DONE h ->
  let first := accord.Acquire c name meta w in
  let second := accord.Acquire c name meta' (state first) in
  result first = Returns (inl ErrDone) /\
  result second = Returns (inl ErrDone) /\
  calls second = [accord.CallContains tt name] /\
  remote_calls (state second) = S (remote_calls w).
Proof.
  intros Hc Hf Hn Hr first second.
  assert (Hl : accord.cache_Contains tt name w = ((false, None), w)).
  { simpl. rewrite Hf. simpl. by rewrite bool_decide_eq_false_2. }
  destruct (Acquire_maps_status c tt name meta w w (remote_called w)
              {| rpc.AcquireResponse_Status := rpc.Status_DONE;
                 rpc.AcquireResponse_Handle := h |} Hc Hl)
    as (_ & Hdone & _).
  { simpl. by rewrite Hr. }
  specialize (Hdone eq_refl).
  assert (Hadd : accord.cache_Add tt name (remote_called w) =
                 (None, set_cache (remote_called w)
                          ({[name]} ∪ names w) (staged w) (cache_closed w))).
  { simpl. unfold guarded. simpl. by rewrite Hf. }
  rewrite Hadd in Hdone. simpl in Hdone.
  unfold second, first. rewrite Hdone. unfold result, state, calls.
  cbn [fst snd].
  split; [reflexivity|].
  set (w1 := set_cache (remote_called w) ({[name]} ∪ names w) (staged w)
               (cache_closed w)).
  destruct (Acquire_cached c tt name meta' w1 Hc) as [Hcached _].
  assert (Hl1 : accord.cache_Contains tt name w1 = ((true, None), w1)).
  { simpl. rewrite Hf. simpl. rewrite bool_decide_eq_true_2; [done|].
    set_solver. }
  rewrite Hcached by (by rewrite Hl1). rewrite Hl1. cbn [fst snd].
  repeat split; reflexivity.
Qed.

End doubleMore.

(** ** More runs on the test doubles *)

Module MoreExamples.
Import Exec Time Options Doubles.

Definition sample_renew : rpc.RenewRequest :=
  {| rpc.RenewRequest_Owner := "worker-1";
     rpc.RenewRequest_HandleId := sample_bytes;
     rpc.RenewRequest_Ttl := 600;
     rpc.RenewRequest_Metadata := ∅ |}.

Definition sample_done : rpc.DoneRequest :=
  {| rpc.DoneRequest_Owner := "worker-1";
     rpc.DoneRequest_HandleId := sample_bytes;
     rpc.DoneRequest_Metadata := ∅ |}.

(** A renewal for ten minutes reaches the backend once, with an
    expiration ten minutes after the clock. *)
Lemma Renew_delegates_witness :
  exists id,
    uuid.bytes id = sample_bytes /\
    result (service.Renew sample_renew (sample_backend (None, None))) =
      Returns (inr rpc.Build_RenewResponse) /\
    calls (service.Renew sample_renew (sample_backend (None, None))) =
      [service.CallRenew "worker-1" id 1700000000000000000 ∅] /\
    invocations
      (service.backend
         (state (service.Renew sample_renew (sample_backend (None, None))))) =
      1%nat.
Proof.
  destruct (serviceMore.Renew_delegates sample_renew
              (sample_backend (None, None)))
    as (id & Hb & Heq).
  - discriminate.
  - reflexivity.
  - split; [vm_compute; discriminate|vm_compute; reflexivity].
  - exists id. split; [exact Hb|]. rewrite Heq.
    repeat split; reflexivity.
Defined.

Lemma Done_delegates_witness :
  exists id,
    uuid.bytes id = sample_bytes /\
    result (service.Done sample_done (sample_backend (None, None))) =
      Returns (inr rpc.Build_DoneResponse) /\
    calls (service.Done sample_done (sample_backend (None, None))) =
      [service.CallDone "worker-1" id ∅].
Proof.
  destruct (serviceMore.Done_delegates sample_done
              (sample_backend (None, None)))
    as (id & Hb & Heq).
  - discriminate.
  - reflexivity.
  - exists id. split; [exact Hb|]. rewrite Heq.
    repeat split; reflexivity.
Defined.

(** A storage failure in the backend comes back as it is, and a backend
    answering with nothing at all makes the adapter panic. *)
Lemma Acquire_other_outcomes_witness :
  let req := sample_acquire "worker-1" "job-1" in
  result (service.Acquire req
            (sample_backend (None, Some (Failure "storage down")))) =
    Returns (inl (Failure "storage down")) /\
  result (service.Acquire req (sample_backend (None, None))) =
    Panics NilDereference.
Proof.
  intros req.
  assert (Ho : rpc.AcquireRequest_Owner req <> "") by discriminate.
  assert (Hn : rpc.AcquireRequest_Name req <> "") by discriminate.
  split.
  - apply (proj1 (serviceMore.Acquire_other_outcomes req
                    (sample_backend (None, Some (Failure "storage down")))
                    Ho Hn) None).
    + reflexivity.
    + discriminate.
    + discriminate.
  - apply (proj2 (serviceMore.Acquire_other_outcomes req
                    (sample_backend (None, None)) Ho Hn)).
    reflexivity.
Defined.

(** 123456789 nanoseconds past the second are 123 milliseconds. *)
Lemma wire_expiration_rounds_down_witness :
  1700000000123 * 1000000 <= service.ExpTime sample_data
    < (1700000000123 + 1) * 1000000.
Proof.
  apply (serviceMore.wire_expiration_rounds_down sample_data
           (sample_handle "batch" "job-1" sample_bytes)).
  - reflexivity.
  - split; [vm_compute; discriminate|vm_compute; reflexivity].
Defined.

(** One nanosecond before the epoch is in millisecond -1, not 0. *)
Example expiration_before_epoch :
  rpc.ExpTime
    (serviceFacts.wire
       {| service.ID := sample_id; service.Name := "job-1";
          service.Namespace := "batch"; service.ExpTime := -1;
          service.NumAcquired := 1; service.Metadata := ∅ |}) = -1.
Proof. reflexivity. Qed.

Lemma wire_identifier_round_trip_witness :
  uuid.FromBytes (rpc.Id (sample_handle "batch" "job-1" sample_bytes)) =
    inr sample_id.
Proof.
  apply (serviceMore.wire_identifier_round_trip sample_data
           (sample_handle "batch" "job-1" sample_bytes)).
  reflexivity.
Defined.

(** The defaults, from a nil pointer. *)
Lemma norm_establishes_witness :
  let p := {| Owner := "generated"; Namespace := ""; TTL := 600000000000;
              Dir := "data"; OnError := None |} in
  Owner p <> "" /\ Second <= TTL p /\ Dir p <> "".
Proof.
  intros p.
  destruct (OptionsMore.norm_establishes None "generated" ∅ p)
    as (Ho & Ht & Hd & _).
  - discriminate.
  - apply OptionsFacts.norm_lookup.
  - auto.
Defined.

Lemma norm_idempotent_witness :
  let first := norm None "generated" ∅ in
  let second := norm (Some first.1) "other" first.2 in
  second.1 <> first.1 /\
  second.2 !! second.1 = first.2 !! first.1 /\
  second.2 !! first.1 = first.2 !! first.1.
Proof.
  apply (OptionsMore.norm_idempotent None "generated" "other" ∅).
  discriminate.
Defined.

(** A lookup that fails, and a remote end that cannot be reached. *)
Lemma Acquire_passes_failures_on_witness :
  let c := sample_client None in
  let w := sample_world ["job-1"] (inl (Failure "unreachable")) (inl EOF)
             (fault_at OpContains (Failure "disk error")) in
  let w' := sample_world [] (inl (StatusError Unavailable "unreachable"))
              (inl EOF) no_faults in
  accord.Acquire c "job-1" ∅ w =
    (Returns (inl (Failure "disk error")), w,
     [accord.CallContains tt "job-1"]) /\
  accord.Acquire c "job-1" ∅ w' =
    (Returns (inl (StatusError Unavailable "unreachable")),
     remote_called w',
     [accord.CallContains tt "job-1";
      accord.CallAcquire tt (accordFacts.acquire_request c "job-1" ∅)]).
Proof.
  intros c w w'. split.
  - apply (proj1 (accordMore.Acquire_passes_failures_on c tt "job-1" ∅ w
                    eq_refl) false (Failure "disk error") w).
    reflexivity.
  - apply (proj2 (accordMore.Acquire_passes_failures_on c tt "job-1" ∅ w'
                    eq_refl)
             (StatusError Unavailable "unreachable") w' (remote_called w')).
    + vm_compute. reflexivity.
    + reflexivity.
Defined.

Lemma Acquire_call_sequence_witness :
  let c := sample_client None in
  let w := sample_world [] (reply_with rpc.Status_HELD None) (inl EOF)
             no_faults in
  calls (accord.Acquire c "job-1" ∅ w) `prefix_of`
    [accord.CallContains tt "job-1";
     accord.CallAcquire tt (accordFacts.acquire_request c "job-1" ∅);
     accord.CallAdd tt "job-1"] /\
  ~ In (accord.CallAdd tt "job-1") (calls (accord.Acquire c "job-1" ∅ w)).
Proof.
  intros c w.
  destruct (accordMore.Acquire_call_sequence c tt "job-1" ∅ w eq_refl)
    as [Hp Hadd].
  split; [exact Hp|].
  intros Hin. destruct (Hadd tt "job-1" Hin) as (_ & _ & _ & res & Hr & Hs).
  injection Hr as <-. discriminate.
Defined.

(** An OK response without a handle panics; a HELD response with the same
    missing handle does not. *)
Lemma Acquire_panics_iff_witness :
  let c := sample_client None in
  let w := sample_world [] (reply_with rpc.Status_OK None) (inl EOF)
             no_faults in
  let w' := sample_world [] (reply_with rpc.Status_HELD None) (inl EOF)
              no_faults in
  (exists p, result (accord.Acquire c "job-1" ∅ w) = Panics p) /\
  ~ (exists p, result (accord.Acquire c "job-1" ∅ w') = Panics p).
Proof.
  intros c w w'.
  assert (Hl : accord.cache_Contains tt "job-1" w = ((false, None), w))
    by (vm_compute; reflexivity).
  assert (Hl' : accord.cache_Contains tt "job-1" w' = ((false, None), w'))
    by (vm_compute; reflexivity).
  split.
  - apply (proj2 (accordMore.Acquire_panics_iff c tt "job-1" ∅ w w
                    (remote_called w)
                    {| rpc.AcquireResponse_Status := rpc.Status_OK;
                       rpc.AcquireResponse_Handle := None |}
                    eq_refl Hl eq_refl)).
    split; [discriminate|]. split; [discriminate|]. by left.
  - intros Hp.
    apply (proj1 (accordMore.Acquire_panics_iff c tt "job-1" ∅ w' w'
                    (remote_called w')
                    {| rpc.AcquireResponse_Status := rpc.Status_HELD;
                       rpc.AcquireResponse_Handle := None |}
                    eq_refl Hl' eq_refl)) in Hp.
    destruct Hp as [Hh _]. by apply Hh.
Defined.

(** A status outside the enumeration, with a proper handle: a grant. *)
Lemma Acquire_status_default_witness :
  let c := sample_client None in
  let h := sample_handle "batch" "job-1" sample_bytes in
  let w := sample_world [] (reply_with (rpc.Status_unrecognized 7) (Some h))
             (inl EOF) no_faults in
  result (accord.Acquire c "job-1" ∅ w) =
    Returns (inr {| handle_id := sample_id; handle_meta := ∅;
                    handle_opt := sample_options |}).
Proof.
  intros c h w.
  assert (Hl : accord.cache_Contains tt "job-1" w = ((false, None), w))
    by (vm_compute; reflexivity).
  rewrite (accordMore.Acquire_status_default c tt "job-1" ∅ w w
             (remote_called w)
             {| rpc.AcquireResponse_Status := rpc.Status_unrecognized 7;
                rpc.AcquireResponse_Handle := Some h |} h sample_id
             eq_refl Hl eq_refl).
  - reflexivity.
  - discriminate.
  - discriminate.
  - reflexivity.
  - reflexivity.
Defined.

(** The adapter's grant for [job-1], delivered to the client. *)
Lemma adapter_response_is_handled_witness :
  let c := sample_client None in
  let res := {| rpc.AcquireResponse_Status := rpc.Status_OK;
                rpc.AcquireResponse_Handle :=
                  Some (sample_handle "batch" "job-1" sample_bytes) |} in
  let w := sample_world [] (inr res) (inl EOF) no_faults in
  result (service.Acquire (sample_acquire "worker-1" "job-1")
            (sample_backend (Some sample_data, None))) = Returns (inr res) /\
  exists out,
    result (accord.Acquire c "job-1" ∅ w) = Returns out /\
    exists h, out = inr h.
Proof.
  intros c res w.
  assert (Hs : result (service.Acquire (sample_acquire "worker-1" "job-1")
                         (sample_backend (Some sample_data, None))) =
               Returns (inr res)) by reflexivity.
  assert (Hl : accord.cache_Contains tt "job-1" w = ((false, None), w))
    by (vm_compute; reflexivity).
  split; [exact Hs|].
  exact (accordMore.adapter_response_is_handled
           (sample_acquire "worker-1" "job-1")
           (sample_backend (Some sample_data, None)) res
           c tt "job-1" ∅ w w (remote_called w) Hs eq_refl Hl eq_refl).
Defined.

(** Construction over the sample stream, then [Acquire] for [job-3]. *)
Lemma synced_names_are_done_witness :
  let w := sample_world ["job-0"] (inl EOF) (sample_stream EOF) no_faults in
  exists c,
    result (accord.RPCClient tt (Some sample_options) "generated" w) =
      Returns (inr c) /\
    result (accord.Acquire c "job-3" ∅
              (state (accord.RPCClient tt (Some sample_options)
                        "generated" w))) =
      Returns (inl ErrDone) /\
    remote_calls (state (accord.RPCClient tt (Some sample_options)
                           "generated" w)) = 1%nat.
Proof.
  intros w.
  destruct (doubleMore.synced_names_are_done tt (Some sample_options)
              "generated" w
              [sample_handle "batch" "job-1" sample_bytes;
               sample_handle "batch-2" "job-2" sample_bytes;
               sample_handle "batch" "job-3" sample_bytes] ∅
              eq_refl eq_refl)
    as (c & Hc & Hdone & Hcalls & _).
  exists c. split; [exact Hc|]. split; [|exact Hcalls].
  change "job-3" with (rpc.Name (sample_handle "batch" "job-3" sample_bytes)).
  rewrite (Hdone (sample_handle "batch" "job-3" sample_bytes)).
  - reflexivity.
  - set_solver.
  - reflexivity.
Defined.

Lemma done_is_remembered_witness :
  let c := sample_client None in
  let w := sample_world [] (reply_with rpc.Status_DONE None) (inl EOF)
             no_faults in
  let first := accord.Acquire c "job-1" ∅ w in
  let second := accord.Acquire c "job-1" ∅ (state first) in
  result first = Returns (inl ErrDone) /\
  result second = Returns (inl ErrDone) /\
  calls second = [accord.CallContains tt "job-1"] /\
  remote_calls (state second) = 1%nat.
Proof.
  intros c w.
  apply (doubleMore.done_is_remembered c "job-1" ∅ ∅ w None).
  - reflexivity.
  - reflexivity.
  - set_solver.
  - reflexivity.
Defined.

End MoreExamples.
